(** * The export pipeline of [export/export.go]

    A shallow embedding of the sharded, batching exporter: the shard queues,
    [Exporter.enqueue], [Export], the drain loop of [Exporter.Run] with its
    [send] closure, the goroutine that [send] starts, the flush timer,
    [New] and the global exporter.

    Go values are modelled as follows.
    - [uint64] hashes are [N]; the only arithmetic on them is [hash % len].
    - [int] indices and lengths are [nat] (all are below 2049).
    - A channel is a reference: the heap [chans] maps a reference to the
      buffered entries and the capacity.  A [shard] struct holds the
      reference, so copying the struct shares the queue but not [pending].
    - The closure [func() { shard.pending = false }] captures the variable
      [shard] of one loop iteration; captured variables live in [locals]
      and the closure is the address of the one it captured.
    - Prometheus counters are [N] (they are only incremented by integers).
    - Time is [Z] nanoseconds, as in [time.Duration]. *)

From stdpp Require Import base numbers option list gmap strings.

Local Open Scope nat_scope.

(** ** Constants (export.go, lines 88-102) *)

Definition shardCount : nat := 512.
Definition shardBufferSize : nat := 2048.
Definition batchSizeMax : nat := 200.
Definition second : Z := 1000000000%Z.
Definition batchDelayMax : Z := (5 * second)%Z.

(** ** Counters (lines 35-72) *)

Record Metrics := mkMetrics {
  samplesExported : N;
  samplesDropped : N;
  samplesSent : N;
  sendIterations : N;
  shardProcess : N;
  shardProcessPending : N
}.

Definition noMetrics : Metrics := mkMetrics 0 0 0 0 0 0.

Definition addSamplesExported (k : N) (m : Metrics) : Metrics :=
  mkMetrics (samplesExported m + k) (samplesDropped m) (samplesSent m)
            (sendIterations m) (shardProcess m) (shardProcessPending m).
Definition addSamplesDropped (k : N) (m : Metrics) : Metrics :=
  mkMetrics (samplesExported m) (samplesDropped m + k) (samplesSent m)
            (sendIterations m) (shardProcess m) (shardProcessPending m).
Definition addSamplesSent (k : N) (m : Metrics) : Metrics :=
  mkMetrics (samplesExported m) (samplesDropped m) (samplesSent m + k)
            (sendIterations m) (shardProcess m) (shardProcessPending m).
Definition addSendIterations (k : N) (m : Metrics) : Metrics :=
  mkMetrics (samplesExported m) (samplesDropped m) (samplesSent m)
            (sendIterations m + k) (shardProcess m) (shardProcessPending m).
Definition addShardProcess (k : N) (m : Metrics) : Metrics :=
  mkMetrics (samplesExported m) (samplesDropped m) (samplesSent m)
            (sendIterations m) (shardProcess m + k) (shardProcessPending m).
Definition addShardProcessPending (k : N) (m : Metrics) : Metrics :=
  mkMetrics (samplesExported m) (samplesDropped m) (samplesSent m)
            (sendIterations m) (shardProcess m) (shardProcessPending m + k).

(** ** The flush timer ([time.Timer]) *)

(** [active]: the runtime will still fire it; [when]: its deadline;
    [C]: a value is buffered in the timer's channel. *)
Record Timer := mkTimer { active : bool; when : Z; C : bool }.

Definition NewTimer (now d : Z) : Timer := mkTimer true (now + d) false.

(** [timer.Stop()] reports whether the call stopped a running timer. *)
Definition Timer_Stop (t : Timer) : bool * Timer :=
  (active t, mkTimer false (when t) (C t)).

Definition Timer_Reset (now d : Z) (t : Timer) : Timer :=
  mkTimer true (now + d) (C t).

(** What the runtime does to the timer when the clock reads [now]. *)
Definition Timer_fire (now : Z) (t : Timer) : Timer :=
  if active t && bool_decide (when t ≤ now)%Z
  then mkTimer false (when t) true
  else t.

(** [stopTimer] (lines 260-267): stop, and drain the channel if the timer
    had already expired. *)
Definition stopTimer (t : Timer) : Timer :=
  let '(stopped, t) := Timer_Stop t in
  if negb stopped then mkTimer (active t) (when t) false else t.

(** ** Options, shards, queue entries (lines 104-112, 384-397) *)

Record ExporterOpts := mkOpts {
  ProjectID : string;
  TestEndpoint : string;
  CredentialsFile : string
}.

(** A call returns or panics. *)
Inductive outcome (A : Type) :=
  | Returns (a : A)
  | Panics (msg : string).
Arguments Returns {A} a.
Arguments Panics {A} msg.

Section Pipeline.

(** The payload [*monitoring_pb.TimeSeries] is opaque to the exporter. *)
Context {Sample : Type}.

Record queueEntry := mkEntry { hash : N; sample : Sample }.

(** A buffered channel of queue entries. *)
Record chan := mkChan { buf : list queueEntry; cap : nat }.

(** [type shard struct { queue chan queueEntry; pending bool }]:
    [queue] is a reference into the channel heap. *)
Record shard := mkShard { queue : nat; pending : bool }.

(** The one closure the code creates: [func() { shard.pending = false }],
    identified by the captured variable's address in [locals]. *)
Inductive closer := Release (addr : nat).

(** [type Exporter struct]: the logger, the series cache and the builder
    play no part in the queueing; [nextc] is kept in the state below. *)
Record Exporter := mkExporter { opts : ExporterOpts; shards : list shard }.

(** The request handed to [CreateTimeSeries] (lines 378-381). *)
Record CreateTimeSeriesRequest := mkRequest {
  Name : string;
  TimeSeries : list queueEntry
}.

(** A goroutine started by [send]: its two arguments. *)
Definition task : Type := list queueEntry * list closer.

(** ** Program state

    The batch keeps whole queue entries although the code appends only
    [e.sample]: the hash under which a sample was queued stays visible to
    the statements below, and nothing in the model reads it back. *)
Record State := mkState {
  (* heap *)
  chans : list chan;
  locals : list shard;
  (* package-level counters *)
  metrics : Metrics;
  (* the exporter; [nextc] holds at most one signal *)
  exp : Exporter;
  nextc : bool;
  (* variables of Run *)
  timer : Timer;
  batch : list queueEntry;
  seen : gset N;
  closers : list closer;
  shardOffset : nat;
  returned : bool;
  (* environment: clock, running send goroutines, backend calls, log *)
  now : Z;
  inflight : list task;
  backend : list CreateTimeSeriesRequest;
  logs : list string
}.

Definition set_chans (v : list chan) (st : State) : State :=
  mkState v (locals st) (metrics st) (exp st) (nextc st) (timer st) (batch st)
    (seen st) (closers st) (shardOffset st) (returned st) (now st)
    (inflight st) (backend st) (logs st).
Definition set_locals (v : list shard) (st : State) : State :=
  mkState (chans st) v (metrics st) (exp st) (nextc st) (timer st) (batch st)
    (seen st) (closers st) (shardOffset st) (returned st) (now st)
    (inflight st) (backend st) (logs st).
Definition set_metrics (v : Metrics) (st : State) : State :=
  mkState (chans st) (locals st) v (exp st) (nextc st) (timer st) (batch st)
    (seen st) (closers st) (shardOffset st) (returned st) (now st)
    (inflight st) (backend st) (logs st).
Definition set_nextc (v : bool) (st : State) : State :=
  mkState (chans st) (locals st) (metrics st) (exp st) v (timer st) (batch st)
    (seen st) (closers st) (shardOffset st) (returned st) (now st)
    (inflight st) (backend st) (logs st).
Definition set_timer (v : Timer) (st : State) : State :=
  mkState (chans st) (locals st) (metrics st) (exp st) (nextc st) v (batch st)
    (seen st) (closers st) (shardOffset st) (returned st) (now st)
    (inflight st) (backend st) (logs st).
Definition set_batch (v : list queueEntry) (st : State) : State :=
  mkState (chans st) (locals st) (metrics st) (exp st) (nextc st) (timer st) v
    (seen st) (closers st) (shardOffset st) (returned st) (now st)
    (inflight st) (backend st) (logs st).
Definition set_seen (v : gset N) (st : State) : State :=
  mkState (chans st) (locals st) (metrics st) (exp st) (nextc st) (timer st)
    (batch st) v (closers st) (shardOffset st) (returned st) (now st)
    (inflight st) (backend st) (logs st).
Definition set_closers (v : list closer) (st : State) : State :=
  mkState (chans st) (locals st) (metrics st) (exp st) (nextc st) (timer st)
    (batch st) (seen st) v (shardOffset st) (returned st) (now st)
    (inflight st) (backend st) (logs st).
Definition set_shardOffset (v : nat) (st : State) : State :=
  mkState (chans st) (locals st) (metrics st) (exp st) (nextc st) (timer st)
    (batch st) (seen st) (closers st) v (returned st) (now st)
    (inflight st) (backend st) (logs st).
Definition set_returned (v : bool) (st : State) : State :=
  mkState (chans st) (locals st) (metrics st) (exp st) (nextc st) (timer st)
    (batch st) (seen st) (closers st) (shardOffset st) v (now st)
    (inflight st) (backend st) (logs st).
Definition set_now (v : Z) (st : State) : State :=
  mkState (chans st) (locals st) (metrics st) (exp st) (nextc st) (timer st)
    (batch st) (seen st) (closers st) (shardOffset st) (returned st) v
    (inflight st) (backend st) (logs st).
Definition set_inflight (v : list task) (st : State) : State :=
  mkState (chans st) (locals st) (metrics st) (exp st) (nextc st) (timer st)
    (batch st) (seen st) (closers st) (shardOffset st) (returned st) (now st)
    v (backend st) (logs st).
Definition set_backend (v : list CreateTimeSeriesRequest) (st : State) : State :=
  mkState (chans st) (locals st) (metrics st) (exp st) (nextc st) (timer st)
    (batch st) (seen st) (closers st) (shardOffset st) (returned st) (now st)
    (inflight st) v (logs st).
Definition set_logs (v : list string) (st : State) : State :=
  mkState (chans st) (locals st) (metrics st) (exp st) (nextc st) (timer st)
    (batch st) (seen st) (closers st) (shardOffset st) (returned st) (now st)
    (inflight st) (backend st) v.

(** ** Shard operations (lines 395-423) *)

(** A non-blocking receive: the oldest buffered entry, if any. *)
Definition chan_recv (c : chan) : option (queueEntry * chan) :=
  match buf c with
  | [] => None
  | e :: rest => Some (e, mkChan rest (cap c))
  end.

(** A non-blocking send: [None] when the buffer is full. *)
Definition chan_offer (e : queueEntry) (c : chan) : option chan :=
  if length (buf c) <? cap c
  then Some (mkChan (buf c ++ [e]) (cap c))
  else None.

(** [shard.get]: a reference outside the heap is a nil channel, on which
    no receive is ever ready. *)
Definition shard_get (s : shard) (st : State) : option queueEntry * State :=
  match chans st !! queue s with
  | Some c =>
      match chan_recv c with
      | Some (e, c') => (Some e, set_chans (<[queue s := c']> (chans st)) st)
      | None => (None, st)
      end
  | None => (None, st)
  end.

(** [shard.enqueue]: count the attempt, offer, count the drop. *)
Definition shard_enqueue (s : shard) (h : N) (x : Sample) (st : State) : State :=
  let st := set_metrics (addSamplesExported 1 (metrics st)) st in
  let e := mkEntry h x in
  match chans st !! queue s with
  | Some c =>
      match chan_offer e c with
      | Some c' => set_chans (<[queue s := c']> (chans st)) st
      | None => set_metrics (addSamplesDropped 1 (metrics st)) st
      end
  | None => set_metrics (addSamplesDropped 1 (metrics st)) st
  end.

(** ** The enqueue path (lines 224-234) *)

(** [Exporter.enqueue]: [idx := hash % uint64(len(e.shards))], then
    [e.shards[idx].enqueue].  With no shards Go panics on the division;
    the model then leaves the state alone (the lookup fails). *)
Definition Exporter_enqueue (h : N) (x : Sample) (st : State) : State :=
  let idx := N.to_nat (h mod N.of_nat (length (shards (exp st)))) in
  match shards (exp st) !! idx with
  | Some s => shard_enqueue s h x st
  | None => st
  end.

(** [triggerNext]: a non-blocking send on the one-slot channel [nextc]. *)
Definition triggerNext (st : State) : State :=
  if nextc st then st else set_nextc true st.

(** ** The drain loop (lines 270-374) *)

(** [cap(batch)]: both [make] calls give the batch capacity [batchSizeMax],
    and [append] runs only while [len(batch) < cap(batch)], so the slice is
    never reallocated. *)
Definition batchCap : nat := batchSizeMax.

(** The [send] closure (lines 279-301): start the goroutine on the current
    batch and closers, reset the timer, clear [seen], fresh closers and
    batch. *)
Definition send (st : State) : State :=
  let st := set_inflight (inflight st ++ [(batch st, closers st)]) st in
  let st := set_timer (Timer_Reset (now st) batchDelayMax (stopTimer (timer st))) st in
  let st := set_seen ∅ st in
  let st := set_closers [] st in
  set_batch [] st.

(** Number of entries buffered in the shard's queue. *)
Definition qlen (s : shard) (st : State) : nat :=
  match chans st !! queue s with
  | Some c => length (buf c)
  | None => 0
  end.

(** The inner loop (lines 338-350); [appendEntry] is its lines 345-349:
    flush on a hash already in the batch, record the hash, append.
    Every iteration that does not leave
    the loop takes one entry off the queue, so [S (qlen s st)] rounds are
    enough (see [fillBatch_fuel]). *)
Definition appendEntry (e : queueEntry) (st : State) : State :=
  let st := if bool_decide (hash e ∈ seen st) then send st else st in
  let st := set_seen ({[hash e]} ∪ seen st) st in
  set_batch (batch st ++ [e]) st.

Fixpoint fillBatch (fuel : nat) (s : shard) (st : State) : State :=
  match fuel with
  | 0 => st
  | S fuel' =>
      if length (batch st) <? batchCap then
        match shard_get s st with
        | (Some e, st) => fillBatch fuel' s (appendEntry e st)
        | (None, st) => st
        end
      else st
  end.

(** Lines 352-353: [shard.pending = true] writes the loop's own variable
    [shard], which the closure then captures. *)
Definition markPending (s : shard) (st : State) : State :=
  let addr := length (locals st) in
  let st := set_locals (locals st ++ [mkShard (queue s) true]) st in
  set_closers (closers st ++ [Release addr]) st.

(** Lines 355-357. *)
Definition flushIfFull (st : State) : State :=
  if length (batch st) =? batchCap then send st else st.

(** One iteration of the loop over the shards (lines 328-357).
    [shard := e.shards[index]] copies the struct out of the slice. *)
Definition visit (i : nat) (st : State) : State :=
  let st := set_metrics (addShardProcess 1 (metrics st)) st in
  let index := (i + shardOffset st) mod length (shards (exp st)) in
  match shards (exp st) !! index with
  | Some s =>
      if pending s then
        set_metrics (addShardProcessPending 1 (metrics st)) st
      else
        let startLen := length (batch st) in
        let st := fillBatch (S (qlen s st)) s st in
        let st := if startLen <? length (batch st) then markPending s st else st in
        flushIfFull st
  | None => st
  end.

(** [for ; i < len(e.shards); i++] (line 327); returns the final [i]. *)
Fixpoint shardLoop (fuel i : nat) (st : State) : nat * State :=
  match fuel with
  | 0 => (i, st)
  | S fuel' =>
      if i <? length (shards (exp st))
      then shardLoop fuel' (S i) (visit i st)
      else (i, st)
  end.

(** The case [<-e.nextc] (lines 315-363), after the receive.  (With no
    shards Go would panic on the modulo; [New] always makes 512.) *)
Definition drainPass (st : State) : State :=
  let st := set_metrics (addSendIterations 1 (metrics st)) st in
  let '(i, st) := shardLoop (length (shards (exp st))) 0 st in
  let st := if i <? length (shards (exp st)) then triggerNext st else st in
  set_shardOffset ((shardOffset st + i) mod length (shards (exp st))) st.

(** The case [<-timer.C] (lines 365-371), after the receive. *)
Definition timerCase (st : State) : State :=
  if 0 <? length (batch st) then send st
  else set_timer (Timer_Reset (now st) batchDelayMax (timer st)) st.

(** ** The goroutine started by [send] (lines 280-289, 376-382) *)

Definition call_closer (c : closer) (ls : list shard) : list shard :=
  match c with
  | Release addr => alter (λ s, mkShard (queue s) false) addr ls
  end.

(** [err] is what [CreateTimeSeries] returns. *)
Definition sendTask (err : option string) (t : task) (st : State) : State :=
  let '(b, cs) := t in
  let req := mkRequest ("projects/" +:+ ProjectID (opts (exp st))) b in
  let st := set_backend (backend st ++ [req]) st in
  let st := match err with
            | Some msg => set_logs (logs st ++ ["send batch: " +:+ msg]) st
            | None => st
            end in
  let st := set_metrics (addSamplesSent (N.of_nat (length b)) (metrics st)) st in
  set_locals (foldl (λ ls c, call_closer c ls) (locals st) cs) st.

(** ** Construction of the exporter and start of [Run] *)

(** [newShard] for each of the [shardCount] slots (lines 166-170): shard
    [i] owns channel [i]. *)
Definition newShards : list shard :=
  (λ i, mkShard i false) <$> seq 0 shardCount.
Definition newChans : list chan :=
  replicate shardCount (mkChan [] shardBufferSize).

(** The state when [Run] reaches its loop at time [t0] with a fresh
    exporter. *)
Definition initState (o : ExporterOpts) (t0 : Z) : State :=
  mkState newChans [] noMetrics (mkExporter o newShards) false
    (NewTimer t0 batchDelayMax) [] ∅ [] 0 false t0 [] [] [].

(** ** Interleavings

    Producers, the drain loop and the send goroutines run concurrently.
    One event is one call of [Exporter.enqueue] or [triggerNext] by a
    producer, one case of the [select] in [Run], one send goroutine, or
    the clock advancing.  [select] may take any case that is ready, and
    the goroutines started by [send] may run in any order: [EvSend k] runs
    the [k]-th of those still waiting.  A case of the [select] is one
    event although producers may enqueue meanwhile: the batch, [seen], the
    closers, [shardOffset] and the timer belong to [Run] alone, and a
    producer only appends to the tail of a queue.  [EvDone] is the case
    [<-ctx.Done()]: [Run] returns, and the deferred [stopTimer] (line 268)
    stops the timer and drains its channel. *)
Inductive event :=
  | EvEnqueue (h : N) (x : Sample)
  | EvTrigger
  | EvWake
  | EvTimer
  | EvDone
  | EvTick (dt : Z)
  | EvSend (k : nat) (err : option string).

Definition step (ev : event) (st : State) : option State :=
  match ev with
  | EvEnqueue h x => Some (Exporter_enqueue h x st)
  | EvTrigger => Some (triggerNext st)
  | EvWake =>
      if negb (returned st) && nextc st
      then Some (drainPass (set_nextc false st)) else None
  | EvTimer =>
      if negb (returned st) && C (timer st)
      then Some (timerCase (set_timer (mkTimer (active (timer st)) (when (timer st)) false) st))
      else None
  | EvDone =>
      if negb (returned st)
      then Some (set_returned true (set_timer (stopTimer (timer st)) st))
      else None
  | EvTick dt =>
      if bool_decide (0 ≤ dt)%Z
      then let t := (now st + dt)%Z in
           Some (set_timer (Timer_fire t (timer st)) (set_now t st))
      else None
  | EvSend k err =>
      match inflight st !! k with
      | Some t => Some (sendTask err t (set_inflight (delete k (inflight st)) st))
      | None => None
      end
  end.

Fixpoint run (evs : list event) (st : State) : option State :=
  match evs with
  | [] => Some st
  | ev :: evs' =>
      match step ev st with
      | Some st' => run evs' st'
      | None => None
      end
  end.

Definition reachable (o : ExporterOpts) (t0 : Z) (st : State) : Prop :=
  ∃ evs, run evs (initState o t0) = Some st.

(** ** The goroutine in two steps

    [EvSend] takes a send goroutine as one event.  In the code the request
    is issued when the goroutine calls [CreateTimeSeries] (line 281); the
    log line, the counter and the closers follow the return of the call
    (lines 281-288), and in between any number of other requests may be
    issued or answered.  [sendCall] is the first half of [sendTask] and
    [sendReturn] the second (see [sendTask_split]).  A [Fine] state adds
    to the state the goroutines whose request is open; [FCall k] lets the
    [k]-th waiting goroutine issue its request, [FReturn k err] lets the
    [k]-th open request return [err], and [FEvent] is an event as above. *)
Definition sendCall (t : task) (st : State) : State :=
  let req := mkRequest ("projects/" +:+ ProjectID (opts (exp st))) t.1 in
  set_backend (backend st ++ [req]) st.

Definition sendReturn (err : option string) (t : task) (st : State) : State :=
  let st := match err with
            | Some msg => set_logs (logs st ++ ["send batch: " +:+ msg]) st
            | None => st
            end in
  let st := set_metrics (addSamplesSent (N.of_nat (length t.1)) (metrics st)) st in
  set_locals (foldl (λ ls c, call_closer c ls) (locals st) t.2) st.

Record Fine := mkFine { base : State; calls : list task }.

Inductive fevent :=
  | FEvent (ev : event)
  | FCall (k : nat)
  | FReturn (k : nat) (err : option string).

Definition fstep (ev : fevent) (f : Fine) : option Fine :=
  match ev with
  | FEvent ev =>
      match step ev (base f) with
      | Some st' => Some (mkFine st' (calls f))
      | None => None
      end
  | FCall k =>
      match inflight (base f) !! k with
      | Some t =>
          Some (mkFine (sendCall t (set_inflight (delete k (inflight (base f))) (base f)))
                       (calls f ++ [t]))
      | None => None
      end
  | FReturn k err =>
      match calls f !! k with
      | Some t => Some (mkFine (sendReturn err t (base f)) (delete k (calls f)))
      | None => None
      end
  end.

Fixpoint frun (evs : list fevent) (f : Fine) : option Fine :=
  match evs with
  | [] => Some f
  | ev :: evs' =>
      match fstep ev f with
      | Some f' => frun evs' f'
      | None => None
      end
  end.

Definition freachable (o : ExporterOpts) (t0 : Z) (f : Fine) : Prop :=
  ∃ evs, frun evs (mkFine (initState o t0) []) = Some f.

(** ** [Export] (lines 203-222)

    The sample builder is not part of this file; it is a parameter.
    [next] returns the point (if one is emitted), its hash, the samples
    left and an error.  The loop runs while samples are left, so a builder
    that consumes nothing would keep it running: [fuel] bounds the rounds,
    and [None] means the bound was hit. *)
Section ExportPath.

Context {Target RefSample : Type}.
Variable next :
  Target → list RefSample → option Sample * N * list RefSample * option string.

Fixpoint exportLoop (fuel : nat) (target : Target) (samples : list RefSample)
    (st : State) : option (outcome State) :=
  match samples with
  | [] => Some (Returns st)
  | _ :: _ =>
      match fuel with
      | 0 => None
      | S fuel' =>
          let '(x, h, rest, err) := next target samples in
          match err with
          | Some msg => Some (Panics msg)
          | None =>
              let st := match x with
                        | Some x => Exporter_enqueue h x st
                        | None => st
                        end in
              exportLoop fuel' target rest st
          end
      end
  end.

Definition Export (fuel : nat) (target : Target) (samples : list RefSample)
    (st : State) : option (outcome State) :=
  match exportLoop fuel target samples st with
  | Some (Returns st) => Some (Returns (triggerNext st))
  | r => r
  end.

(** The points the builder emits for [samples], in order, as long as it
    reports no error. *)
Fixpoint emitted (fuel : nat) (target : Target) (samples : list RefSample)
    : list queueEntry :=
  match samples, fuel with
  | [], _ | _, 0 => []
  | _ :: _, S fuel' =>
      let '(x, h, rest, err) := next target samples in
      match err with
      | Some _ => []
      | None =>
          match x with
          | Some x => mkEntry h x :: emitted fuel' target rest
          | None => emitted fuel' target rest
          end
      end
  end.

End ExportPath.

End Pipeline.

(** ** [New] (lines 138-173)

    [prometheus.Registerer] is an interface; [MustRegister] either returns
    or panics.  Collectors are identified by their metric names.  The call
    [EnableClientHandlingTimeHistogram] only configures the gRPC client
    metrics and is left out. *)
Class Registerer (R : Type) := MustRegister : list string → R → outcome R.

(** [prometheus.Registry]: registering a name twice is an error, which
    [MustRegister] turns into a panic with the error's text. *)
Definition Registry : Type := list string.

Fixpoint registerAll (cs : list string) (r : Registry) : outcome Registry :=
  match cs with
  | [] => Returns r
  | c :: cs' =>
      if bool_decide (c ∈ r)
      then Panics "duplicate metrics collector registration attempted"
      else registerAll cs' (r ++ [c])
  end.

Global Instance Registry_Registerer : Registerer Registry := registerAll.

Definition exporterCounters : list string :=
  [ "gcm_collector_samples_exported_total";
    "gcm_collector_samples_dropped_total";
    "gcm_collector_samples_sent_total";
    "gcm_collector_send_iterations_total";
    "gcm_collector_shard_process_total";
    "gcm_collector_shard_process_pending_total" ].

(** What [New] leaves behind: the registerer after the call, the exporter
    (with the channels it allocated) or nil, and the error. *)
Record NewResult (R Sample : Type) := mkNewResult {
  registerer : option R;
  exporter : option (Exporter * list (@chan Sample));
  error : option string
}.
Global Arguments mkNewResult {R Sample} _ _ _.
Global Arguments registerer {R Sample} _.
Global Arguments exporter {R Sample} _.
Global Arguments error {R Sample} _.

Definition New {R Sample : Type} `{Registerer R} (reg : option R)
    (o : ExporterOpts) : outcome (NewResult R Sample) :=
  let registered :=
    match reg with
    | Some r =>
        match MustRegister exporterCounters r with
        | Returns r' => Returns (Some r')
        | Panics msg => Panics msg
        end
    | None => Returns None
    end in
  match registered with
  | Panics msg => Panics msg
  | Returns reg' =>
      if bool_decide (ProjectID o = "")
      then Returns (mkNewResult reg' None (Some "GCP project ID missing"))
      else Returns (mkNewResult reg' (Some (mkExporter o newShards, newChans)) None)
  end.

(** ** The global exporter (lines 175-193)

    [var globalExporter *Exporter]: nil until set.  [InitGlobal] assigns
    whatever [New] returns, the nil of a failed construction included; if
    [New] panics the assignment is not reached and the variable keeps its
    value.  The result is what the call did and the variable after it. *)
Definition GlobalVar (Sample : Type) : Type := option (Exporter * list (@chan Sample)).

Definition InitGlobal {R Sample : Type} `{Registerer R} (reg : option R)
    (o : ExporterOpts) (globalExporter : GlobalVar Sample)
    : outcome (NewResult R Sample) * GlobalVar Sample :=
  match New reg o with
  | Returns r => (Returns r, exporter r)
  | Panics msg => (Panics msg, globalExporter)
  end.

Definition Global {Sample : Type} (globalExporter : GlobalVar Sample)
    : outcome (Exporter * list (@chan Sample)) :=
  match globalExporter with
  | Some e => Returns e
  | None => Panics "Global GCM exporter used before initialization."
  end.

(** * Predicates for the statements *)

Section Predicates.

Context {Sample : Type}.

Local Abbreviation State := (@State Sample).
Local Abbreviation queueEntry := (@queueEntry Sample).
Local Abbreviation chan := (@chan Sample).
Local Abbreviation task := (@task Sample).
Local Abbreviation Fine := (@Fine Sample).
Local Abbreviation fevent := (@fevent Sample).

Implicit Types (st : State) (e : queueEntry) (c : chan) (s : shard).

(** The hashes of the points of a batch, in order. *)
Definition hashes (b : list queueEntry) : list N := hash <$> b.

(** The shard a hash belongs to. *)
Definition shardOf (h : N) : nat := N.to_nat (h mod N.of_nat shardCount).

(** ** Runs *)

(** [runs evs st]: every event of [evs] is enabled in turn; [after evs st]
    is then the state the run ends in. *)
Definition runs (evs : list event) st : bool :=
  if run evs st is Some _ then true else false.

Definition after (evs : list event) st : State := default st (run evs st).

(** The calls of [Exporter.enqueue] for a list of points. *)
Definition enqueueEvents (es : list queueEntry) : list event :=
  (λ e, EvEnqueue (hash e) (sample e)) <$> es.

(** ** States inside a drain pass

    [passStart st]: the case [<-e.nextc] was taken in [st] and the pass is
    about to enter its loop.  [afterVisits k st]: the pass has gone
    through [k] rounds of the loop over the shards.  [inVisit k j st]: it
    is then in round [k], [j] rounds into the inner loop.  [occurs]
    collects the states between events, these, and the state of a round
    just after the shard was marked pending (lines 351-354); for the last
    two it takes any number of rounds and any shard, which covers the
    ones the pass really goes through. *)
Definition passStart st : State :=
  set_metrics (addSendIterations 1 (metrics st)) (set_nextc false st).

Definition afterVisits (k : nat) st : State := (shardLoop k 0 (passStart st)).2.

Definition inVisit (k j : nat) st : State :=
  let st1 := afterVisits k st in
  let st1 := set_metrics (addShardProcess 1 (metrics st1)) st1 in
  match shards (exp st1) !! ((k + shardOffset st1) mod length (shards (exp st1))) with
  | Some s => fillBatch j s st1
  | None => st1
  end.

Inductive occurs (o : ExporterOpts) (t0 : Z) : State → Prop :=
  | occurs_rest st : reachable o t0 st → occurs o t0 st
  | occurs_between st k : reachable o t0 st → occurs o t0 (afterVisits k st)
  | occurs_filling st k j : reachable o t0 st → occurs o t0 (inVisit k j st)
  | occurs_marked st k j s :
      reachable o t0 st → occurs o t0 (markPending s (inVisit k j st)).

(** ** Invariants *)

(** Every channel of the heap has the capacity [newShard] gave it and
    holds no more than that. *)
Definition chansOk (cs : list chan) : Prop :=
  length cs = shardCount ∧
  Forall (λ c, cap c = shardBufferSize ∧ length (buf c) ≤ shardBufferSize) cs.

(** Every queued point sits in the queue of its hash. *)
Definition queuesSorted (cs : list chan) : Prop :=
  ∀ j c e, cs !! j = Some c → e ∈ buf c → shardOf (hash e) = j.

(** What the statements of the drain loop leave alone.  Between the
    receive from [nextc] and the end of the loop over the shards the pass
    writes the batch, [seen], the closers, the timer, the queues, the
    captured variables, the counters and the list of started goroutines;
    everything else is as before. *)
Definition sameOutside st st' : Prop :=
  exp st' = exp st ∧ shardOffset st' = shardOffset st ∧
  nextc st' = nextc st ∧ now st' = now st ∧ returned st' = returned st ∧
  backend st' = backend st ∧ logs st' = logs st.

(** A batch fit for one request: no hash twice, at most [batchSizeMax]
    points. *)
Definition okBatch (b : list queueEntry) : Prop :=
  NoDup (hashes b) ∧ length b ≤ batchSizeMax.

(** The batch under construction, [seen], the started goroutines and the
    requests issued. *)
Definition batchInv st : Prop :=
  NoDup (hashes (batch st)) ∧
  seen st = list_to_set (hashes (batch st)) ∧
  length (batch st) ≤ batchSizeMax ∧
  Forall (λ t : task, okBatch t.1) (inflight st) ∧
  Forall (λ r, okBatch (TimeSeries r)) (backend st).

(** Between two shard visits the batch is moreover short of full. *)
Definition restInv st : Prop := batchInv st ∧ length (batch st) < batchSizeMax.

(** A running timer has nothing buffered in its channel. *)
Definition timerOk (t : Timer) : Prop := active t = true → C t = false.

(** The timer as [send] leaves it: running, due in [batchDelayMax]. *)
Definition armed st : Timer := mkTimer true (now st + batchDelayMax) false.

(** [sentSince st st']: from [st] to [st'] goroutines were only started,
    and the timer was touched exactly if one was. *)
Definition sentSince st st' : Prop :=
  ∃ new, inflight st' = inflight st ++ new ∧
    timer st' = match new with [] => timer st | _ => armed st end.

(** What holds between any two events. *)
Definition Inv (o : ExporterOpts) st : Prop :=
  exp st = mkExporter o newShards ∧
  chansOk (chans st) ∧ queuesSorted (chans st) ∧
  shardOffset st = 0 ∧ timerOk (timer st) ∧ restInv st.

(** ** Where the points are *)

(** The points of [b] that belong to shard [j], in order. *)
Definition ofShard (j : nat) (b : list queueEntry) : list queueEntry :=
  filter (λ e, shardOf (hash e) = j) b.

(** The points of [b] of series [h], in order. *)
Definition ofSeries (h : N) (b : list queueEntry) : list queueEntry :=
  filter (λ e, hash e = h) b.

(** The entries buffered in queue [j]. *)
Definition queued (j : nat) st : list queueEntry :=
  match chans st !! j with
  | Some c => buf c
  | None => []
  end.

(** The points the drain loop has taken off the queues and no goroutine
    has sent yet: those handed to goroutines, in the order the goroutines
    were started, then the batch. *)
Definition taken st : list queueEntry := concat (fst <$> inflight st) ++ batch st.

(** The way of shard [j]'s points through the exporter, oldest first. *)
Definition pipeline (j : nat) st : list queueEntry :=
  ofShard j (taken st) ++ queued j st.

(** The same for one series. *)
Definition seriesLine (h : N) st : list queueEntry :=
  ofSeries h (taken st) ++ ofSeries h (queued (shardOf h) st).

(** What an event adds to the queue of shard [j]: the point of an
    [Exporter.enqueue] for that shard, unless the queue is full. *)
Definition arrivals (j : nat) (ev : event) st : list queueEntry :=
  match ev with
  | EvEnqueue h x =>
      if bool_decide (shardOf h = j) && (length (queued j st) <? shardBufferSize)
      then [mkEntry h x] else []
  | _ => []
  end.

(** Number of points held: queued, in the batch or with a goroutine. *)
Definition held st : nat :=
  sum_list_with (λ c, length (buf c)) (chans st) + length (taken st).

(** Number of points in the requests issued. *)
Definition requested st : nat :=
  sum_list_with (λ r, length (TimeSeries r)) (backend st).

(** The counters of the enqueue path and of the goroutines. *)
Definition pointCounters st : N * N * N :=
  (samplesExported (metrics st), samplesDropped (metrics st), samplesSent (metrics st)).

(** Number of points in the requests that are open. *)
Definition openPoints (f : Fine) : nat := length (concat (fst <$> calls f)).

(** The count of the points when [n] points are in open requests:
    exported = held + requested + dropped, and sent + [n] = requested. *)
Definition accounted (n : nat) st : Prop :=
  samplesExported (metrics st) =
    (N.of_nat (held st) + N.of_nat (requested st) + samplesDropped (metrics st))%N ∧
  (samplesSent (metrics st) + N.of_nat n)%N = N.of_nat (requested st).

(** Runs of the two-step model, as [runs] and [after]. *)
Definition fruns (evs : list fevent) (f : Fine) : bool :=
  if frun evs f is Some _ then true else false.

Definition fafter (evs : list fevent) (f : Fine) : Fine := default f (frun evs f).

(** The timer is running or has fired, and a running timer is due within
    [batchDelayMax]. *)
Definition timerLive st : Prop :=
  (active (timer st) = true ∨ C (timer st) = true) ∧
  (active (timer st) = true → (when (timer st) ≤ now st + batchDelayMax)%Z).

(** The timer over the life of [Run]: live while the loop runs, stopped
    with an empty channel once [Run] has returned. *)
Definition timerKept st : Prop :=
  if returned st
  then active (timer st) = false ∧ C (timer st) = false
  else timerLive st.

(** Every started goroutine has a point to send; every request issued
    had one and was addressed to the project of the options. *)
Definition sendsOk (o : ExporterOpts) st : Prop :=
  Forall (λ t : task, t.1 ≠ []) (inflight st) ∧
  Forall (λ r, TimeSeries r ≠ [] ∧ Name r = "projects/" +:+ ProjectID o) (backend st).

End Predicates.

(** * Concrete runs *)

Definition demoOpts : ExporterOpts := mkOpts "demo-project" "" "".

Definition start : @State string := initState demoOpts 0.

Definition startN : @State nat := initState demoOpts 0.

(** One series (hash 0) scraped twice; each point is drained by a pass and
    flushed by the timer before the next arrives. *)
Definition firstScrape : list (@event string) :=
  [ EvEnqueue 0 "a"; EvTrigger; EvWake; EvTick batchDelayMax; EvTimer ].

Definition twoScrapes : list (@event string) :=
  firstScrape ++
  [ EvEnqueue 0 "b"; EvTrigger; EvWake; EvTick batchDelayMax; EvTimer ].

(** The same, and then the second goroutine reaches the backend first. *)
Definition secondFirst : list (@event string) :=
  twoScrapes ++ [EvSend 1 None; EvSend 0 None].

(** Shard 0 holds one point, shard 1 two points of one series. *)
Definition dupAfterOther : list (@event string) :=
  [ EvEnqueue 0 "a"; EvEnqueue 1 "b"; EvEnqueue 1 "c"; EvTrigger; EvWake ].

(** One point drained into the batch and the timer expired. *)
Definition untilTimerDue : list (@event string) :=
  [ EvEnqueue 0 "a"; EvTrigger; EvWake; EvTick batchDelayMax ].

(** 200 series, one point each, in shards 0 to 199. *)
Definition fillOnce : list (@event nat) :=
  ((λ i, EvEnqueue (N.of_nat i) i) <$> seq 0 200) ++ [EvTrigger].

(** 2048 points for shard 7 and no drain pass. *)
Definition fillShard7 : list (@event nat) :=
  (λ m, EvEnqueue (7 + 512 * N.of_nat m)%N m) <$> seq 0 2048.

(** 40 points in each of the shards 0 to 4, all of different series. *)
Definition fillFive : list (@event nat) :=
  (j ← seq 0 5; (λ m, EvEnqueue (N.of_nat j + 512 * N.of_nat m)%N m) <$> seq 0 40)
  ++ [EvTrigger].

(** Two points in two shards, and the wake-up signal. *)
Definition twoShards : list (@event string) :=
  [ EvEnqueue 0 "a"; EvEnqueue 1 "b"; EvTrigger ].

(** Both goroutines of [twoScrapes] have issued their request and neither
    call has returned. *)
Definition twoOpen : list (@fevent string) :=
  (FEvent <$> twoScrapes) ++ [FCall 0; FCall 0].

(** A scrape is flushed, a second point arrives, and [Run] returns before
    any pass has seen it. *)
Definition cancelled : list (@event string) :=
  firstScrape ++ [ EvEnqueue 0 "b"; EvTrigger; EvDone ].

(** A builder for the runs below: a sample is a reference and a value; the
    reference is the hash, value 0 emits nothing, reference 999 is an
    error. *)
Definition demoNext (target : unit) (samples : list (N * nat))
    : option nat * N * list (N * nat) * option string :=
  match samples with
  | [] => (None, 0%N, [], None)
  | (ref, v) :: rest =>
      (if v =? 0 then None else Some v, ref, rest,
       if (ref =? 999)%N then Some "unknown series" else None)
  end.

Definition demoSamples : list (N * nat) :=
  [ (3%N, 7); (515%N, 0); (4%N, 8); (3%N, 9) ].

(** Five samples of four series; the fourth emits nothing.  Series 515 and
    3 belong to shard 3, series 4 and 1028 to shard 4. *)
Definition mixedSamples : list (N * nat) :=
  [ (515%N, 7); (4%N, 8); (3%N, 9); (1027%N, 0); (1028%N, 5) ].

(** * Properties *)

Section Properties.

Context {Sample : Type}.

Local Abbreviation State := (@State Sample).
Local Abbreviation queueEntry := (@queueEntry Sample).
Local Abbreviation chan := (@chan Sample).
Local Abbreviation task := (@task Sample).
Local Abbreviation hashes := (@hashes Sample).
Local Abbreviation runs := (@runs Sample).
Local Abbreviation after := (@after Sample).
Local Abbreviation enqueueEvents := (@enqueueEvents Sample).
Local Abbreviation passStart := (@passStart Sample).
Local Abbreviation afterVisits := (@afterVisits Sample).
Local Abbreviation inVisit := (@inVisit Sample).
Local Abbreviation occurs := (@occurs Sample).
Local Abbreviation chansOk := (@chansOk Sample).
Local Abbreviation queuesSorted := (@queuesSorted Sample).
Local Abbreviation sameOutside := (@sameOutside Sample).
Local Abbreviation okBatch := (@okBatch Sample).
Local Abbreviation batchInv := (@batchInv Sample).
Local Abbreviation restInv := (@restInv Sample).
Local Abbreviation armed := (@armed Sample).
Local Abbreviation sentSince := (@sentSince Sample).
Local Abbreviation Inv := (@Inv Sample).

Implicit Types (st : State) (e : queueEntry) (c : chan) (s : shard).

Lemma shardOf_lt h : shardOf h < shardCount.
Proof.
  unfold shardOf, shardCount.
  assert (h mod N.of_nat 512 < N.of_nat 512)%N by (apply N.mod_lt; done).
  lia.
Qed.

(** ** The freshly built exporter *)

Lemma length_newShards : length newShards = shardCount.
Proof. unfold newShards. by rewrite length_fmap, length_seq. Qed.

Lemma lookup_newShards i :
  i < shardCount → newShards !! i = Some (mkShard i false).
Proof.
  intros Hi. unfold newShards.
  rewrite list_lookup_fmap, lookup_seq_lt by done. done.
Qed.

Lemma lookup_newShards_Some i s :
  newShards !! i = Some s → s = mkShard i false ∧ i < shardCount.
Proof.
  intros Hs.
  assert (i < shardCount).
  { apply lookup_lt_Some in Hs. by rewrite length_newShards in Hs. }
  rewrite lookup_newShards in Hs by done. by inversion Hs.
Qed.

(** ** Channels *)

Lemma chansOk_new : chansOk (newChans (Sample:=Sample)).
Proof.
  split; [apply length_replicate|].
  apply Forall_replicate. simpl. split; [done|lia].
Qed.

Lemma chansOk_insert cs i c :
  chansOk cs → cap c = shardBufferSize → length (buf c) ≤ shardBufferSize →
  chansOk (<[i := c]> cs).
Proof.
  intros [Hl Hf] Hc Hb. split; [by rewrite length_insert|].
  by apply Forall_insert.
Qed.

Lemma chansOk_lookup cs i :
  chansOk cs → i < shardCount →
  ∃ c, cs !! i = Some c ∧ cap c = shardBufferSize ∧ length (buf c) ≤ shardBufferSize.
Proof.
  intros [Hl Hf] Hi.
  destruct (lookup_lt_is_Some_2 cs i) as [c Hc]; [lia|].
  exists c. split; [done|]. by apply (Forall_lookup_1 _ _ _ _ Hf Hc).
Qed.

Lemma chan_offer_Some e c c' :
  chan_offer e c = Some c' →
  length (buf c) < cap c ∧ c' = mkChan (buf c ++ [e]) (cap c).
Proof.
  unfold chan_offer. destruct (Nat.ltb_spec (length (buf c)) (cap c)); [|done].
  intros [= <-]. done.
Qed.

Lemma chan_offer_None e c :
  chan_offer e c = None → cap c ≤ length (buf c).
Proof.
  unfold chan_offer. by destruct (Nat.ltb_spec (length (buf c)) (cap c)).
Qed.

Lemma chan_recv_Some c e c' :
  chan_recv c = Some (e, c') → buf c = e :: buf c' ∧ cap c' = cap c.
Proof.
  unfold chan_recv. destruct (buf c) as [|e0 rest] eqn:Hb; [done|].
  intros [= <- <-]. done.
Qed.

(** ** What the statements of the drain loop leave alone *)

Lemma sameOutside_refl st : sameOutside st st.
Proof. by repeat split. Qed.

Lemma sameOutside_trans st1 st2 st3 :
  sameOutside st1 st2 → sameOutside st2 st3 → sameOutside st1 st3.
Proof.
  intros (?&?&?&?&?&?&?) (?&?&?&?&?&?&?).
  repeat split; congruence.
Qed.

Lemma shard_get_cases s st :
  shard_get s st = (None, st) ∨
  ∃ e c c', chans st !! queue s = Some c ∧ chan_recv c = Some (e, c') ∧
    shard_get s st = (Some e, set_chans (<[queue s := c']> (chans st)) st).
Proof.
  unfold shard_get. destruct (chans st !! queue s) as [c|]; [|by left].
  destruct (chan_recv c) as [[e c']|] eqn:Hr; [|by left].
  right. by exists e, c, c'.
Qed.

Lemma sameOutside_send st : sameOutside st (send st).
Proof. by repeat split. Qed.

Lemma sameOutside_appendEntry e st : sameOutside st (appendEntry e st).
Proof. unfold appendEntry. by case_bool_decide; repeat split. Qed.

Lemma sameOutside_fillBatch fuel s st : sameOutside st (fillBatch fuel s st).
Proof.
  revert st. induction fuel as [|fuel IH]; intros st; simpl.
  { apply sameOutside_refl. }
  destruct (length (batch st) <? batchCap); [|apply sameOutside_refl].
  destruct (shard_get_cases s st) as [->|(e&c&c'&_&_&->)].
  { apply sameOutside_refl. }
  eapply sameOutside_trans; [|apply IH].
  eapply sameOutside_trans; [|apply sameOutside_appendEntry].
  by repeat split.
Qed.

Lemma sameOutside_markPending s st : sameOutside st (markPending s st).
Proof. by repeat split. Qed.

Lemma sameOutside_flushIfFull st : sameOutside st (flushIfFull st).
Proof.
  unfold flushIfFull. destruct (_ =? _); [apply sameOutside_send|apply sameOutside_refl].
Qed.

Lemma sameOutside_visit i st : sameOutside st (visit i st).
Proof.
  unfold visit. cbv zeta.
  set (st1 := set_metrics _ st).
  assert (sameOutside st st1) as H1 by by repeat split.
  destruct (shards (exp st1) !! _) as [s|]; [|done].
  destruct (pending s); [by repeat split|].
  eapply sameOutside_trans; [|apply sameOutside_flushIfFull].
  eapply sameOutside_trans; [apply H1|].
  eapply sameOutside_trans; [apply (sameOutside_fillBatch (S (qlen s st1)) s)|].
  destruct (_ <? _); [apply sameOutside_markPending|apply sameOutside_refl].
Qed.

Lemma sameOutside_shardLoop fuel i st : sameOutside st (shardLoop fuel i st).2.
Proof.
  revert i st. induction fuel as [|fuel IH]; intros i st; simpl.
  { apply sameOutside_refl. }
  destruct (i <? _); [|apply sameOutside_refl].
  eapply sameOutside_trans; [apply (sameOutside_visit i)|apply IH].
Qed.

(** ** The loop over the shards always runs to the end

    Its body has no [break] of its own (the one on line 341 leaves the
    inner loop), so it stops only when [i] reaches [len(e.shards)]. *)
Lemma shardLoop_index fuel i st :
  i ≤ length (shards (exp st)) → length (shards (exp st)) - i ≤ fuel →
  (shardLoop fuel i st).1 = length (shards (exp st)).
Proof.
  revert i st. induction fuel as [|fuel IH]; intros i st Hi Hf; simpl.
  { lia. }
  destruct (Nat.ltb_spec i (length (shards (exp st)))) as [Hlt|Hge]; simpl; [|lia].
  destruct (sameOutside_visit i st) as (He&_).
  rewrite IH; rewrite He; [done|lia|lia].
Qed.

(** More fuel than shards changes nothing. *)
Lemma shardLoop_fuel fuel i st :
  length (shards (exp st)) - i ≤ fuel →
  shardLoop fuel i st = shardLoop (length (shards (exp st)) - i) i st.
Proof.
  revert i st. induction fuel as [|fuel IH]; intros i st Hf; simpl.
  { by replace (length (shards (exp st)) - i) with 0 by lia. }
  destruct (Nat.ltb_spec i (length (shards (exp st)))) as [Hlt|Hge].
  - destruct (length (shards (exp st)) - i) as [|n] eqn:Hn; [lia|]. simpl.
    destruct (Nat.ltb_spec i (length (shards (exp st)))); [|lia].
    destruct (sameOutside_visit i st) as (He&_).
    rewrite IH by (rewrite He; lia). rewrite He.
    by replace (length (shards (exp st)) - S i) with n by lia.
  - replace (length (shards (exp st)) - i) with 0 by lia. done.
Qed.

Lemma drainPass_frame st :
  exp (drainPass st) = exp st ∧ now (drainPass st) = now st ∧
  returned (drainPass st) = returned st ∧ backend (drainPass st) = backend st ∧
  logs (drainPass st) = logs st.
Proof.
  unfold drainPass. cbv zeta.
  set (st1 := set_metrics _ st).
  pose proof (sameOutside_shardLoop (length (shards (exp st1))) 0 st1) as Hs.
  destruct (shardLoop _ 0 st1) as [i st2]. simpl in Hs.
  destruct Hs as (?&?&?&?&?&?&?). subst st1. simpl in *.
  unfold triggerNext.
  destruct (i <? _); [destruct (nextc st2)|]; simpl; repeat split; congruence.
Qed.

(** A pass visits every shard, leaves [shardOffset] where it was and
    never signals [nextc] itself. *)
Lemma drainPass_offset st :
  0 < length (shards (exp st)) → shardOffset st < length (shards (exp st)) →
  shardOffset (drainPass st) = shardOffset st ∧ nextc (drainPass st) = nextc st.
Proof.
  intros Hn Ho. unfold drainPass. cbv zeta.
  set (st1 := set_metrics _ st).
  pose proof (sameOutside_shardLoop (length (shards (exp st1))) 0 st1) as Hs.
  pose proof (shardLoop_index (length (shards (exp st1))) 0 st1) as Hi.
  destruct (shardLoop _ 0 st1) as [i st2]. simpl in Hs, Hi.
  destruct Hs as (He&Hoff&Hnx&_). subst st1. simpl in *.
  rewrite Hi by lia. rewrite He, Nat.ltb_irrefl.
  rewrite He, Hoff, Hnx. split; [|done].
  rewrite Nat.Div0.add_mod, Nat.Div0.mod_same, Nat.add_0_r, Nat.Div0.mod_mod.
  by apply Nat.mod_small.
Qed.

(** ** The inner loop needs no more fuel than the queue is long *)

Lemma qlen_appendEntry s e st : qlen s (appendEntry e st) = qlen s st.
Proof. unfold appendEntry. by case_bool_decide. Qed.

Lemma fillBatch_fuel fuel s st :
  qlen s st < fuel → fillBatch fuel s st = fillBatch (S (qlen s st)) s st.
Proof.
  revert st. induction fuel as [|fuel IH]; intros st Hf; [lia|].
  simpl. destruct (length (batch st) <? batchCap); [|done].
  destruct (shard_get_cases s st) as [->|(e&c&c'&Hc&Hr&->)]; [done|].
  apply chan_recv_Some in Hr as [Hb _].
  assert (qlen s st = S (length (buf c'))) as Hq.
  { unfold qlen. by rewrite Hc, Hb. }
  set (st1 := appendEntry e _).
  assert (qlen s st1 = length (buf c')) as Hq1.
  { unfold st1. rewrite qlen_appendEntry. unfold qlen. simpl.
    rewrite list_lookup_insert_eq; [done|]. by apply lookup_lt_Some in Hc. }
  rewrite IH by lia. rewrite Hq1. simpl. rewrite Hq. simpl.
  destruct (length (batch st1) <? batchCap); [|done].
  destruct (shard_get_cases s st1) as [->|(e2&c2&c2'&Hc2&Hr2&->)]; [done|].
  apply chan_recv_Some in Hr2 as [Hb2 _].
  assert (qlen s st1 = S (length (buf c2'))) as Hq2.
  { unfold qlen. by rewrite Hc2, Hb2. }
  rewrite <- Hq1, Hq2. done.
Qed.

(** ** Batches: no hash twice, no more than [batchSizeMax] points *)

Lemma batchInv_ext st st' :
  batch st' = batch st → seen st' = seen st →
  inflight st' = inflight st → backend st' = backend st →
  batchInv st → batchInv st'.
Proof. unfold batchInv. by intros -> -> -> ->. Qed.

Lemma batchInv_send st : batchInv st → batchInv (send st).
Proof.
  intros (Hnd&Hs&Hl&Hi&Hb). unfold batchInv, send. simpl.
  split_and!; [constructor|done|lia| |done].
  apply Forall_app. split; [done|]. apply Forall_singleton. by split.
Qed.

Lemma batchInv_appendEntry e st :
  batchInv st → length (batch st) < batchCap → batchInv (appendEntry e st).
Proof.
  intros Hinv Hlt. unfold appendEntry. case_bool_decide as Hin.
  - apply batchInv_send in Hinv as (_&_&_&Hi&Hb).
    unfold batchInv. simpl. split_and!; [|done|unfold batchSizeMax; lia|done|done].
    apply NoDup_singleton.
  - destruct Hinv as (Hnd&Hs&Hl&Hi&Hb).
    unfold batchInv, hashes. simpl. rewrite fmap_app, length_app. simpl.
    split_and!; [| |unfold batchCap in Hlt; lia|done|done].
    + apply NoDup_app. split_and!; [done| |apply NoDup_singleton].
      intros h Hh ->%list_elem_of_singleton. apply Hin. rewrite Hs.
      by apply elem_of_list_to_set.
    + rewrite Hs, list_to_set_app_L. simpl.
      rewrite (right_id_L ∅ (∪)). apply (comm_L (∪)).
Qed.

Lemma batchInv_fillBatch fuel s st : batchInv st → batchInv (fillBatch fuel s st).
Proof.
  revert st. induction fuel as [|fuel IH]; intros st Hinv; simpl; [done|].
  destruct (Nat.ltb_spec (length (batch st)) batchCap) as [Hlt|]; [|done].
  destruct (shard_get_cases s st) as [->|(e&c&c'&_&_&->)]; [done|].
  apply IH, batchInv_appendEntry; [|done].
  by eapply batchInv_ext; [..|exact Hinv].
Qed.

Lemma batchInv_markPending s st : batchInv st → batchInv (markPending s st).
Proof. by apply batchInv_ext. Qed.

Lemma batchInv_flushIfFull st : batchInv st → batchInv (flushIfFull st).
Proof. unfold flushIfFull. destruct (_ =? _); [apply batchInv_send|done]. Qed.

(** After the check on lines 355-357 the batch is short of full. *)
Lemma flushIfFull_lt st :
  length (batch st) ≤ batchSizeMax → length (batch (flushIfFull st)) < batchSizeMax.
Proof.
  intros Hl. unfold flushIfFull, batchCap.
  destruct (Nat.eqb_spec (length (batch st)) batchSizeMax); simpl; [|lia].
  unfold batchSizeMax. lia.
Qed.

Lemma restInv_visit i st : restInv st → restInv (visit i st).
Proof.
  intros [Hinv Hlt]. unfold visit. cbv zeta.
  set (st1 := set_metrics _ st).
  assert (batchInv st1) as H1 by by eapply batchInv_ext; [..|exact Hinv].
  destruct (shards (exp st1) !! _) as [s|]; [|by split].
  destruct (pending s); [by split|].
  pose proof (batchInv_fillBatch (S (qlen s st1)) s st1 H1) as H2.
  set (st2 := fillBatch _ s st1) in *.
  set (st3 := if _ <? _ then markPending s st2 else st2).
  assert (batchInv st3) as H3.
  { unfold st3. destruct (_ <? _); [by apply batchInv_markPending|done]. }
  split; [by apply batchInv_flushIfFull|].
  apply flushIfFull_lt. by destruct H3 as (_&_&?&_).
Qed.

Lemma restInv_shardLoop fuel i st : restInv st → restInv (shardLoop fuel i st).2.
Proof.
  revert i st. induction fuel as [|fuel IH]; intros i st Hinv; simpl; [done|].
  destruct (i <? _); [|done]. by apply IH, restInv_visit.
Qed.

Lemma restInv_ext st st' :
  batch st' = batch st → seen st' = seen st →
  inflight st' = inflight st → backend st' = backend st →
  restInv st → restInv st'.
Proof.
  intros Hb Hs Hi Hbk [Hinv Hlt]. split; [by eapply batchInv_ext|by rewrite Hb].
Qed.

Lemma restInv_drainPass st : restInv st → restInv (drainPass st).
Proof.
  intros Hinv. unfold drainPass. cbv zeta.
  set (st1 := set_metrics _ st).
  assert (restInv st1) as H1 by by eapply restInv_ext; [..|exact Hinv].
  pose proof (restInv_shardLoop (length (shards (exp st1))) 0 st1 H1) as H2.
  destruct (shardLoop _ 0 st1) as [i st2]. simpl in H2.
  unfold triggerNext.
  destruct (i <? _); [destruct (nextc st2)|]; by eapply restInv_ext; [..|exact H2].
Qed.

Lemma restInv_timerCase st : restInv st → restInv (timerCase st).
Proof.
  intros [Hinv Hlt]. unfold timerCase.
  destruct (0 <? _).
  - split; [by apply batchInv_send|]. simpl. unfold batchSizeMax. lia.
  - by split; [eapply batchInv_ext; [..|exact Hinv]|].
Qed.

Lemma restInv_shard_enqueue s h x st : restInv st → restInv (shard_enqueue s h x st).
Proof.
  intros Hinv. unfold shard_enqueue. cbv zeta. simpl.
  destruct (chans st !! queue s) as [c|]; [destruct (chan_offer _ c)|];
    by eapply restInv_ext; [..|exact Hinv].
Qed.

Lemma restInv_sendTask err k t st :
  inflight st !! k = Some t → restInv st →
  restInv (sendTask err t (set_inflight (delete k (inflight st)) st)).
Proof.
  intros Hk [(Hnd&Hs&Hl&Hi&Hb) Hlt]. destruct t as [b cs].
  assert (okBatch b) as Hok by apply (Forall_lookup_1 _ _ _ _ Hi Hk).
  unfold sendTask.
  assert (∀ st', batch st' = batch st → seen st' = seen st →
    inflight st' = delete k (inflight st) →
    backend st' = backend st ++ [mkRequest ("projects/" +:+ ProjectID (opts (exp st))) b] →
    restInv st') as Hgen.
  { intros st' E1 E2 E3 E4. unfold restInv, batchInv.
    rewrite E1, E2, E3, E4. split_and!; try done.
    - by apply Forall_delete.
    - apply Forall_app. split; [done|]. by apply Forall_singleton. }
  destruct err; by apply Hgen.
Qed.

(** ** The queues keep their capacity *)

Lemma chansOk_shard_get s st : chansOk (chans st) → chansOk (chans (shard_get s st).2).
Proof.
  intros Hok. destruct (shard_get_cases s st) as [->|(e&c&c'&Hc&Hr&->)]; [done|].
  simpl. apply chan_recv_Some in Hr as [Hb Hcap].
  destruct Hok as [Hl Hf].
  pose proof (Forall_lookup_1 _ _ _ _ Hf Hc) as [Hc1 Hc2].
  apply chansOk_insert; [done|congruence|]. rewrite Hb in Hc2. simpl in Hc2. lia.
Qed.

Lemma chans_appendEntry e st : chans (appendEntry e st) = chans st.
Proof. unfold appendEntry. by case_bool_decide. Qed.

Lemma chansOk_fillBatch fuel s st :
  chansOk (chans st) → chansOk (chans (fillBatch fuel s st)).
Proof.
  revert st. induction fuel as [|fuel IH]; intros st Hok; simpl; [done|].
  destruct (length (batch st) <? batchCap); [|done].
  pose proof (chansOk_shard_get s st Hok) as Hg.
  destruct (shard_get s st) as [[e|] st1]; [|done].
  apply IH. by rewrite chans_appendEntry.
Qed.

Lemma chans_flushIfFull st : chans (flushIfFull st) = chans st.
Proof. unfold flushIfFull. by destruct (_ =? _). Qed.

Lemma chansOk_visit i st : chansOk (chans st) → chansOk (chans (visit i st)).
Proof.
  intros Hok. unfold visit. cbv zeta.
  set (st1 := set_metrics _ st).
  destruct (shards (exp st1) !! _) as [s|]; [|done].
  destruct (pending s); [done|].
  rewrite chans_flushIfFull.
  pose proof (chansOk_fillBatch (S (qlen s st1)) s st1 Hok) as H2.
  by destruct (_ <? _).
Qed.

Lemma chansOk_shardLoop fuel i st :
  chansOk (chans st) → chansOk (chans (shardLoop fuel i st).2).
Proof.
  revert i st. induction fuel as [|fuel IH]; intros i st Hok; simpl; [done|].
  destruct (i <? _); [|done]. by apply IH, chansOk_visit.
Qed.

Lemma chansOk_drainPass st : chansOk (chans st) → chansOk (chans (drainPass st)).
Proof.
  intros Hok. unfold drainPass. cbv zeta.
  set (st1 := set_metrics _ st).
  pose proof (chansOk_shardLoop (length (shards (exp st1))) 0 st1 Hok) as H2.
  destruct (shardLoop _ 0 st1) as [i st2]. simpl in H2.
  unfold triggerNext.
  by destruct (i <? _); [destruct (nextc st2)|].
Qed.

Lemma chansOk_shard_enqueue s h x st :
  chansOk (chans st) → chansOk (chans (shard_enqueue s h x st)).
Proof.
  intros Hok. unfold shard_enqueue. cbv zeta. simpl.
  destruct (chans st !! queue s) as [c|] eqn:Hc; [|done].
  destruct (chan_offer _ c) as [c'|] eqn:Ho; [|done].
  simpl. apply chan_offer_Some in Ho as [Hlt ->].
  destruct Hok as [Hl Hf].
  pose proof (Forall_lookup_1 _ _ _ _ Hf Hc) as [Hc1 Hc2].
  apply chansOk_insert; [done|done|]. simpl. rewrite length_app. simpl. lia.
Qed.

(** ** The timer *)

Lemma timer_send st : timerOk (timer st) → timer (send st) = armed st.
Proof.
  intros Hok. unfold send, armed, stopTimer, Timer_Reset, Timer_Stop. simpl.
  destruct (active (timer st)) eqn:Ha; simpl; [|done].
  by rewrite Hok.
Qed.

Lemma timerOk_armed st : timerOk (armed st).
Proof. done. Qed.

Lemma sentSince_refl st : sentSince st st.
Proof. exists []. by rewrite app_nil_r. Qed.

Lemma sentSince_same st st' :
  inflight st' = inflight st → timer st' = timer st → sentSince st st'.
Proof. intros Hi Ht. exists []. by rewrite app_nil_r. Qed.

Lemma sentSince_timerOk st st' :
  sentSince st st' → timerOk (timer st) → timerOk (timer st').
Proof. intros (new&_&->) Hok. by destruct new. Qed.

Lemma sentSince_trans st1 st2 st3 :
  now st2 = now st1 → sentSince st1 st2 → sentSince st2 st3 → sentSince st1 st3.
Proof.
  intros Hnow (n1&Hi1&Ht1) (n2&Hi2&Ht2). exists (n1 ++ n2).
  split; [by rewrite Hi2, Hi1, app_assoc|].
  rewrite Ht2. destruct n2 as [|t n2].
  - by rewrite app_nil_r.
  - unfold armed. rewrite Hnow. by destruct n1.
Qed.

Lemma sentSince_send st : timerOk (timer st) → sentSince st (send st).
Proof. intros Hok. exists [(batch st, closers st)]. split; [done|by apply timer_send]. Qed.

Lemma sentSince_appendEntry e st : timerOk (timer st) → sentSince st (appendEntry e st).
Proof.
  intros Hok. unfold appendEntry. case_bool_decide.
  - destruct (sentSince_send st Hok) as (new&?&?). by exists new.
  - by apply sentSince_same.
Qed.

Lemma sentSince_fillBatch fuel s st :
  timerOk (timer st) → sentSince st (fillBatch fuel s st).
Proof.
  revert st. induction fuel as [|fuel IH]; intros st Hok; simpl.
  { apply sentSince_refl. }
  destruct (length (batch st) <? batchCap); [|apply sentSince_refl].
  destruct (shard_get_cases s st) as [->|(e&c&c'&_&_&->)].
  { apply sentSince_refl. }
  set (st1 := set_chans _ st).
  assert (sentSince st (appendEntry e st1)) as H1.
  { destruct (sentSince_appendEntry e st1 Hok) as (new&?&?). by exists new. }
  eapply sentSince_trans; [|exact H1|].
  - by destruct (sameOutside_appendEntry e st1) as (_&_&_&->&_).
  - apply IH. by eapply sentSince_timerOk.
Qed.

Lemma sentSince_flushIfFull st : timerOk (timer st) → sentSince st (flushIfFull st).
Proof.
  intros Hok. unfold flushIfFull.
  destruct (_ =? _); [by apply sentSince_send|apply sentSince_refl].
Qed.

Lemma sentSince_visit i st : timerOk (timer st) → sentSince st (visit i st).
Proof.
  intros Hok. unfold visit. cbv zeta.
  set (st1 := set_metrics _ st).
  destruct (shards (exp st1) !! _) as [s|]; [|by apply sentSince_same].
  destruct (pending s); [by apply sentSince_same|].
  pose proof (sentSince_fillBatch (S (qlen s st1)) s st1 Hok) as H2.
  pose proof (sameOutside_fillBatch (S (qlen s st1)) s st1) as (_&_&_&Hn2&_).
  set (st2 := fillBatch _ s st1) in *.
  set (st3 := if _ <? _ then markPending s st2 else st2).
  assert (sentSince st st3 ∧ now st3 = now st) as [H3 Hn3].
  { unfold st3. destruct (_ <? _); simpl; (split; [|done]);
      destruct H2 as (new&?&?); by exists new. }
  eapply sentSince_trans; [exact Hn3|exact H3|].
  apply sentSince_flushIfFull. by eapply sentSince_timerOk.
Qed.

Lemma sentSince_shardLoop fuel i st :
  timerOk (timer st) → sentSince st (shardLoop fuel i st).2.
Proof.
  revert i st. induction fuel as [|fuel IH]; intros i st Hok; simpl.
  { apply sentSince_refl. }
  destruct (i <? _); [|apply sentSince_refl].
  eapply sentSince_trans; [|apply (sentSince_visit i st Hok)|].
  - by destruct (sameOutside_visit i st) as (_&_&_&->&_).
  - apply IH. eapply sentSince_timerOk; [apply sentSince_visit|]; done.
Qed.

(** A drain pass resets the timer exactly if it started a goroutine. *)
Lemma sentSince_drainPass st : timerOk (timer st) → sentSince st (drainPass st).
Proof.
  intros Hok. unfold drainPass. cbv zeta.
  set (st1 := set_metrics _ st).
  pose proof (sentSince_shardLoop (length (shards (exp st1))) 0 st1 Hok) as H2.
  destruct (shardLoop _ 0 st1) as [i st2]. simpl in H2.
  destruct H2 as (new&?&?). exists new.
  unfold triggerNext.
  by destruct (i <? _); [destruct (nextc st2)|].
Qed.

(** ** Every queued point sits in the shard of its hash *)

Lemma queuesSorted_shard_get s st :
  queuesSorted (chans st) → queuesSorted (chans (shard_get s st).2).
Proof.
  intros Hq. destruct (shard_get_cases s st) as [->|(e&c&c'&Hc&Hr&->)]; [done|].
  simpl. apply chan_recv_Some in Hr as [Hb _].
  intros j c2 e2 Hj He2.
  destruct (decide (queue s = j)) as [<-|Hne].
  - rewrite list_lookup_insert_eq in Hj by by apply lookup_lt_Some in Hc.
    inversion Hj; subst c2. apply (Hq _ c); [done|]. rewrite Hb. by right.
  - rewrite list_lookup_insert_ne in Hj by done. by apply (Hq _ c2).
Qed.

Lemma queuesSorted_fillBatch fuel s st :
  queuesSorted (chans st) → queuesSorted (chans (fillBatch fuel s st)).
Proof.
  revert st. induction fuel as [|fuel IH]; intros st Hok; simpl; [done|].
  destruct (length (batch st) <? batchCap); [|done].
  pose proof (queuesSorted_shard_get s st Hok) as Hg.
  destruct (shard_get s st) as [[e|] st1]; [|done].
  apply IH. by rewrite chans_appendEntry.
Qed.

Lemma queuesSorted_visit i st :
  queuesSorted (chans st) → queuesSorted (chans (visit i st)).
Proof.
  intros Hok. unfold visit. cbv zeta.
  set (st1 := set_metrics _ st).
  destruct (shards (exp st1) !! _) as [s|]; [|done].
  destruct (pending s); [done|].
  rewrite chans_flushIfFull.
  pose proof (queuesSorted_fillBatch (S (qlen s st1)) s st1 Hok) as H2.
  by destruct (_ <? _).
Qed.

Lemma queuesSorted_shardLoop fuel i st :
  queuesSorted (chans st) → queuesSorted (chans (shardLoop fuel i st).2).
Proof.
  revert i st. induction fuel as [|fuel IH]; intros i st Hok; simpl; [done|].
  destruct (i <? _); [|done]. by apply IH, queuesSorted_visit.
Qed.

Lemma queuesSorted_drainPass st :
  queuesSorted (chans st) → queuesSorted (chans (drainPass st)).
Proof.
  intros Hok. unfold drainPass. cbv zeta.
  set (st1 := set_metrics _ st).
  pose proof (queuesSorted_shardLoop (length (shards (exp st1))) 0 st1 Hok) as H2.
  destruct (shardLoop _ 0 st1) as [i st2]. simpl in H2.
  unfold triggerNext.
  by destruct (i <? _); [destruct (nextc st2)|].
Qed.

Lemma queuesSorted_shard_enqueue s h x st :
  queue s = shardOf h →
  queuesSorted (chans st) → queuesSorted (chans (shard_enqueue s h x st)).
Proof.
  intros Hs Hok. unfold shard_enqueue. cbv zeta. simpl.
  destruct (chans st !! queue s) as [c|] eqn:Hc; [|done].
  destruct (chan_offer _ c) as [c'|] eqn:Ho; [|done].
  simpl. apply chan_offer_Some in Ho as [Hlt ->].
  intros j c2 e2 Hj He2.
  destruct (decide (queue s = j)) as [<-|Hne].
  - rewrite list_lookup_insert_eq in Hj by by apply lookup_lt_Some in Hc.
    inversion Hj; subst c2. simpl in He2.
    apply elem_of_app in He2 as [He2| ->%list_elem_of_singleton]; [|done].
    by apply (Hok _ c).
  - rewrite list_lookup_insert_ne in Hj by done. by apply (Hok _ c2).
Qed.

(** ** What holds between any two events *)

Lemma Inv_init o t0 : Inv o (initState o t0).
Proof.
  split_and!; try done.
  - apply chansOk_new.
  - intros j c e Hj He.
    change (replicate shardCount (mkChan [] shardBufferSize) !! j = Some c) in Hj.
    apply lookup_replicate in Hj as [-> _]. by apply elem_of_nil in He.
  - split; [|simpl; unfold batchSizeMax; lia].
    unfold batchInv. simpl. split_and!; [constructor|done|lia|constructor|constructor].
Qed.

Lemma Exporter_enqueue_shard o st h x :
  exp st = mkExporter o newShards →
  Exporter_enqueue h x st = shard_enqueue (mkShard (shardOf h) false) h x st.
Proof.
  intros He. unfold Exporter_enqueue. rewrite He. cbn [shards].
  rewrite length_newShards. fold (shardOf h).
  by rewrite lookup_newShards by apply shardOf_lt.
Qed.

Lemma exp_shard_enqueue s h x st : exp (shard_enqueue s h x st) = exp st.
Proof.
  unfold shard_enqueue. cbv zeta. simpl.
  by destruct (chans st !! queue s) as [c|]; [destruct (chan_offer _ c)|].
Qed.

Lemma Inv_enqueue o h x st : Inv o st → Inv o (Exporter_enqueue h x st).
Proof.
  intros (He&Hc&Hq&Ho&Ht&Hr). rewrite (Exporter_enqueue_shard o) by done.
  split_and!.
  - by rewrite exp_shard_enqueue.
  - by apply chansOk_shard_enqueue.
  - by apply queuesSorted_shard_enqueue.
  - unfold shard_enqueue. cbv zeta. simpl.
    by destruct (chans st !! _) as [c|]; [destruct (chan_offer _ c)|].
  - unfold shard_enqueue. cbv zeta. simpl.
    by destruct (chans st !! _) as [c|]; [destruct (chan_offer _ c)|].
  - by apply restInv_shard_enqueue.
Qed.

Lemma Inv_drainPass o st : Inv o st → Inv o (drainPass st).
Proof.
  intros (He&Hc&Hq&Ho&Ht&Hr).
  destruct (drainPass_frame st) as (He'&_).
  destruct (drainPass_offset st) as [Ho' _].
  { rewrite He. cbn [shards]. rewrite length_newShards. unfold shardCount. lia. }
  { rewrite He, Ho. cbn [shards]. rewrite length_newShards. unfold shardCount. lia. }
  split_and!.
  - congruence.
  - by apply chansOk_drainPass.
  - by apply queuesSorted_drainPass.
  - congruence.
  - eapply sentSince_timerOk; [by apply sentSince_drainPass|done].
  - by apply restInv_drainPass.
Qed.

Lemma Inv_step o ev st st' : Inv o st → step ev st = Some st' → Inv o st'.
Proof.
  intros HI Hstep. destruct ev as [h x| | | | |dt|k err]; simpl in Hstep.
  - inversion Hstep; subst. by apply Inv_enqueue.
  - inversion Hstep; subst. destruct HI as (He&Hc&Hq&Ho&Ht&Hr).
    unfold triggerNext. destruct (nextc st); [done|].
    split_and!; try done; by eapply restInv_ext; [..|exact Hr].
  - destruct (negb (returned st) && nextc st); [|done].
    inversion Hstep; subst. apply Inv_drainPass.
    destruct HI as (He&Hc&Hq&Ho&Ht&Hr).
    split_and!; try done; by eapply restInv_ext; [..|exact Hr].
  - destruct (negb (returned st) && C (timer st)); [|done].
    inversion Hstep; subst. destruct HI as (He&Hc&Hq&Ho&Ht&Hr).
    set (st1 := set_timer _ st).
    assert (restInv st1) as Hr1 by by eapply restInv_ext; [..|exact Hr].
    pose proof (restInv_timerCase st1 Hr1) as Hr2.
    unfold timerCase in *. destruct (0 <? _); split_and!; try done.
    unfold timerOk, send, stopTimer, Timer_Stop. simpl.
    by destruct (active (timer st)).
  - destruct (negb (returned st)); [|done].
    inversion Hstep; subst. destruct HI as (He&Hc&Hq&Ho&Ht&Hr).
    split_and!; try done.
    unfold timerOk, stopTimer, Timer_Stop. simpl.
    by destruct (active (timer st)).
  - case_bool_decide; [|done].
    inversion Hstep; subst. destruct HI as (He&Hc&Hq&Ho&Ht&Hr).
    split_and!; try done.
    simpl. unfold Timer_fire, timerOk.
    destruct (active (timer st) && _) eqn:Hf; [done|]. exact Ht.
  - destruct (inflight st !! k) as [t|] eqn:Hk; [|done].
    inversion Hstep; subst.
    pose proof (restInv_sendTask err k t st Hk) as Hr'.
    destruct HI as (He&Hc&Hq&Ho&Ht&Hr). specialize (Hr' Hr).
    destruct t as [b cs]. unfold sendTask in *.
    destruct err; split_and!; done.
Qed.

Lemma Inv_run o evs st st' : Inv o st → run evs st = Some st' → Inv o st'.
Proof.
  revert st. induction evs as [|ev evs IH]; intros st HI Hrun; simpl in Hrun.
  { by inversion Hrun; subst. }
  destruct (step ev st) as [st1|] eqn:Hs; [|done].
  eapply IH; [|done]. by eapply Inv_step.
Qed.

Lemma Inv_reachable o t0 st : reachable o t0 st → Inv o st.
Proof. intros [evs Hrun]. eapply Inv_run; [apply Inv_init|done]. Qed.

(** ** States inside a drain pass *)

Lemma afterVisits_inv o t0 k st :
  reachable o t0 st →
  restInv (afterVisits k st) ∧ timerOk (timer (afterVisits k st)) ∧
  now (afterVisits k st) = now st.
Proof.
  intros (He&Hc&Hq&Ho&Ht&Hr)%Inv_reachable. unfold afterVisits.
  assert (restInv (passStart st)) as Hr1 by by eapply restInv_ext; [..|exact Hr].
  split_and!.
  - by apply restInv_shardLoop.
  - eapply sentSince_timerOk; [by apply sentSince_shardLoop|done].
  - by destruct (sameOutside_shardLoop k 0 (passStart st)) as (_&_&_&->&_).
Qed.

Lemma inVisit_inv o t0 k j st :
  reachable o t0 st →
  batchInv (inVisit k j st) ∧ timerOk (timer (inVisit k j st)) ∧
  now (inVisit k j st) = now st.
Proof.
  intros Hre. destruct (afterVisits_inv o t0 k st Hre) as ([Hb _]&Ht&Hn).
  unfold inVisit. cbv zeta.
  set (st1 := set_metrics _ (afterVisits k st)).
  assert (batchInv st1) as Hb1 by by eapply batchInv_ext; [..|exact Hb].
  destruct (shards (exp st1) !! _) as [s|]; [|done].
  split_and!.
  - by apply batchInv_fillBatch.
  - eapply sentSince_timerOk; [by apply sentSince_fillBatch|done].
  - by destruct (sameOutside_fillBatch j s st1) as (_&_&_&->&_).
Qed.

Lemma occurs_inv o t0 st : occurs o t0 st → batchInv st ∧ timerOk (timer st).
Proof.
  intros [st' Hre|st' k Hre|st' k j Hre|st' k j s' Hre].
  - apply Inv_reachable in Hre as (_&_&_&_&Ht&[Hb _]). done.
  - by destruct (afterVisits_inv o t0 k st' Hre) as ([Hb _]&Ht&_).
  - by destruct (inVisit_inv o t0 k j st' Hre) as (Hb&Ht&_).
  - destruct (inVisit_inv o t0 k j st' Hre) as (Hb&Ht&_).
    split; [by apply batchInv_markPending|done].
Qed.

(** ** The claims *)

(** C3 — batch uniqueness.  In every state of the exporter, between
    events or inside a drain pass, the batch holds no hash twice, [seen] is
    exactly the set of the hashes in the batch, and no started goroutine
    and no [CreateTimeSeries] request holds a hash twice.  Appending a
    point whose hash is in [seen] first starts a goroutine on the batch as
    it stands; the point ends up alone in the new batch and [seen] holds
    its hash only. *)
Theorem C3_batch_uniqueness o t0 st :
  occurs o t0 st →
  NoDup (hashes (batch st)) ∧
  seen st = list_to_set (hashes (batch st)) ∧
  (∀ t : task, t ∈ inflight st → NoDup (hashes t.1)) ∧
  (∀ r, r ∈ backend st → NoDup (hashes (TimeSeries r))) ∧
  (∀ e, hash e ∈ seen st →
     inflight (appendEntry e st) = inflight st ++ [(batch st, closers st)] ∧
     batch (appendEntry e st) = [e] ∧
     seen (appendEntry e st) = {[hash e]}).
Proof.
  intros [(Hnd&Hs&_&Hi&Hb) _]%occurs_inv. split_and!; [done|done| | |].
  - intros t Ht. by destruct (proj1 (Forall_forall _ _) Hi t Ht).
  - intros r Hr. by destruct (proj1 (Forall_forall _ _) Hb r Hr).
  - intros e He. unfold appendEntry. rewrite bool_decide_eq_true_2 by done.
    simpl. split_and!; [done|done|]. apply (right_id_L ∅ (∪)).
Qed.

(** C4 — batch cap.  In every state of the exporter the batch holds at
    most [batchSizeMax] = 200 points, and so does every started goroutine
    and every [CreateTimeSeries] request.  Between events and between two
    shard visits it holds fewer than 200.  A batch of exactly 200 takes no
    further point in the inner loop, and the check that follows the loop
    (with or without the shard marked pending in between) sends it: the
    goroutine gets these 200 points and the batch is empty. *)
Theorem C4_batch_cap o t0 st :
  occurs o t0 st →
  batchSizeMax = 200 ∧
  length (batch st) ≤ batchSizeMax ∧
  (∀ t : task, t ∈ inflight st → length t.1 ≤ batchSizeMax) ∧
  (∀ r, r ∈ backend st → length (TimeSeries r) ≤ batchSizeMax) ∧
  (reachable o t0 st → ∀ k, length (batch (afterVisits k st)) < batchSizeMax) ∧
  (reachable o t0 st → length (batch st) < batchSizeMax) ∧
  (length (batch st) = batchSizeMax →
     (∀ fuel s, fillBatch fuel s st = st) ∧
     flushIfFull st = send st ∧
     (∀ s, flushIfFull (markPending s st) = send (markPending s st)) ∧
     inflight (flushIfFull st) = inflight st ++ [(batch st, closers st)] ∧
     batch (flushIfFull st) = []).
Proof.
  intros Hocc. destruct (occurs_inv o t0 st Hocc) as [(Hnd&Hs&Hl&Hi&Hb) _].
  split_and!; [done|done| | | | |].
  - intros t Ht. by destruct (proj1 (Forall_forall _ _) Hi t Ht).
  - intros r Hr. by destruct (proj1 (Forall_forall _ _) Hb r Hr).
  - intros Hre k. by destruct (afterVisits_inv o t0 k st Hre) as ([_ ?]&_).
  - intros Hre. by apply Inv_reachable in Hre as (_&_&_&_&_&[_ ?]).
  - intros Hfull. split_and!.
    + intros [|fuel] s; simpl; [done|].
      unfold batchCap. rewrite Hfull. by rewrite Nat.ltb_irrefl.
    + unfold flushIfFull, batchCap. by rewrite Hfull, Nat.eqb_refl.
    + intros s. unfold flushIfFull, batchCap. simpl. by rewrite Hfull, Nat.eqb_refl.
    + unfold flushIfFull, batchCap. by rewrite Hfull, Nat.eqb_refl.
    + unfold flushIfFull, batchCap. by rewrite Hfull, Nat.eqb_refl.
Qed.

(** C6 — enqueue and drop.  For a shard of a reachable exporter, whose
    queue has capacity [shardBufferSize] = 2048, [shard.enqueue] always
    adds one to [samplesExported]; it adds one to [samplesDropped] exactly
    if the queue holds 2048 entries, and then leaves all queues alone;
    otherwise it appends the entry to the queue.  (The function is total:
    the [select] has a default branch.) *)
Theorem C6_enqueue_or_drop o t0 st i s h x :
  reachable o t0 st → shards (exp st) !! i = Some s →
  shardBufferSize = 2048 ∧
  ∃ c, chans st !! queue s = Some c ∧ cap c = shardBufferSize ∧
    length (buf c) ≤ shardBufferSize ∧
    let st' := shard_enqueue s h x st in
    samplesExported (metrics st') = (samplesExported (metrics st) + 1)%N ∧
    (samplesDropped (metrics st') = (samplesDropped (metrics st) + 1)%N
       ↔ length (buf c) = shardBufferSize) ∧
    (length (buf c) = shardBufferSize → chans st' = chans st) ∧
    (length (buf c) < shardBufferSize →
       samplesDropped (metrics st') = samplesDropped (metrics st) ∧
       chans st' = <[queue s := mkChan (buf c ++ [mkEntry h x]) shardBufferSize]> (chans st)).
Proof.
  intros (He&Hc&_)%Inv_reachable Hs. split; [done|].
  rewrite He in Hs. cbn [shards] in Hs.
  apply lookup_newShards_Some in Hs as [-> Hi]. cbn [queue].
  destruct (chansOk_lookup _ i Hc Hi) as (c&Hci&Hcap&Hlen).
  exists c. do 3 (split; [done|]). cbv zeta.
  unfold shard_enqueue. cbv zeta. cbn [queue chans set_metrics metrics].
  rewrite Hci. unfold chan_offer. rewrite Hcap.
  destruct (Nat.ltb_spec (length (buf c)) shardBufferSize) as [Hlt|Hge]; simpl.
  - split_and!; [done| |lia|done]. split; [|lia]. intros Hd. exfalso. lia.
  - split_and!; [done| |done|lia]. split; [lia|done].
Qed.

Lemma closers_released (cs : list closer) (ls : list shard) a s :
  Release a ∈ cs →
  foldl (λ l r, call_closer r l) ls cs !! a = Some s → pending s = false.
Proof.
  revert s. induction cs as [|r cs IH] using rev_ind; intros s Hin Hs.
  { by apply elem_of_nil in Hin. }
  rewrite foldl_app in Hs. simpl in Hs. destruct r as [b].
  unfold call_closer in Hs.
  destruct (decide (b = a)) as [->|Hne].
  - rewrite list_lookup_alter_eq in Hs.
    destruct (foldl _ ls cs !! a) as [s0|]; simpl in Hs; [|done].
    inversion Hs; subst. done.
  - rewrite list_lookup_alter_ne in Hs by done.
    apply elem_of_app in Hin as [Hin|Hin%list_elem_of_singleton]; [by apply IH|].
    congruence.
Qed.

(** C7 — send accounting.  A started goroutine, whatever
    [CreateTimeSeries] returns, issues exactly one request carrying its
    batch, adds the number of points of the batch to [samplesSent] and
    calls every closer it was given, after which every variable they
    captured has [pending] false.  An error is logged.  The goroutine is
    then gone and its batch is put back nowhere: the batch under
    construction and the queues are as before. *)
Theorem C7_send_accounting st k (t : task) err :
  inflight st !! k = Some t →
  ∃ st', step (EvSend k err) st = Some st' ∧
    samplesSent (metrics st') = (samplesSent (metrics st) + N.of_nat (length t.1))%N ∧
    backend st' = backend st ++ [mkRequest ("projects/" +:+ ProjectID (opts (exp st))) t.1] ∧
    locals st' = foldl (λ l r, call_closer r l) (locals st) t.2 ∧
    (∀ a s, Release a ∈ t.2 → locals st' !! a = Some s → pending s = false) ∧
    logs st' = match err with
               | Some msg => logs st ++ ["send batch: " +:+ msg]
               | None => logs st
               end ∧
    inflight st' = delete k (inflight st) ∧
    batch st' = batch st ∧ chans st' = chans st.
Proof.
  intros Hk.
  exists (sendTask err t (set_inflight (delete k (inflight st)) st)).
  split; [by unfold step; rewrite Hk|].
  destruct t as [b cs]. unfold sendTask.
  destruct err as [msg|]; simpl; split_and!;
    try (intros a sh; apply closers_released); done.
Qed.

(** C8 — timer discipline.  In every state of the exporter [send] leaves
    the timer running and due in [batchDelayMax] = 5 s with an empty
    channel; so do the send on a hash already in the batch and the send of
    a full batch.  A drain pass leaves the timer alone unless it started a
    goroutine.  When the timer case runs with a non-empty batch the batch
    is sent; with an empty batch nothing is sent; either way the timer is
    due 5 s later. *)
Theorem C8_timer_discipline o t0 st :
  occurs o t0 st →
  batchDelayMax = 5000000000%Z ∧
  timer (send st) = armed st ∧
  (∀ e, hash e ∈ seen st → timer (appendEntry e st) = armed st) ∧
  (length (batch st) = batchSizeMax → timer (flushIfFull st) = armed st) ∧
  (reachable o t0 st → ∀ st', step EvWake st = Some st' →
     ∃ new, inflight st' = inflight st ++ new ∧
       timer st' = match new with [] => timer st | _ => armed st end) ∧
  (∀ st', step EvTimer st = Some st' →
     timer st' = armed st ∧ batch st' = [] ∧
     inflight st' = match batch st with
                    | [] => inflight st
                    | _ :: _ => inflight st ++ [(batch st, closers st)]
                    end).
Proof.
  intros Hocc. destruct (occurs_inv o t0 st Hocc) as [_ Ht].
  split_and!; [done|by apply timer_send| | | |].
  - intros e He. unfold appendEntry. rewrite bool_decide_eq_true_2 by done.
    simpl. by apply timer_send.
  - intros Hfull. unfold flushIfFull, batchCap. rewrite Hfull, Nat.eqb_refl.
    by apply timer_send.
  - intros Hre st' Hstep. simpl in Hstep.
    destruct (negb (returned st) && nextc st); [|done].
    inversion Hstep; subst.
    destruct (sentSince_drainPass (set_nextc false st) Ht) as (new&?&?).
    by exists new.
  - intros st' Hstep. simpl in Hstep.
    destruct (negb (returned st) && C (timer st)); [|done].
    inversion Hstep; subst. unfold timerCase. simpl.
    destruct (batch st) as [|e b] eqn:Hb; simpl.
    + by split_and!.
    + split_and!; [|done|by rewrite Hb].
      unfold armed, stopTimer, Timer_Reset, Timer_Stop. simpl.
      by destruct (active (timer st)).
Qed.

(** A shard whose flag is set would be skipped: the visit only counts. *)
Lemma visit_pending_skips i st s :
  shards (exp st) !! ((i + shardOffset st) mod length (shards (exp st))) = Some s →
  pending s = true →
  visit i st =
    set_metrics (addShardProcessPending 1 (addShardProcess 1 (metrics st))) st.
Proof. intros Hs Hp. unfold visit. cbv zeta. simpl. by rewrite Hs, Hp. Qed.

(** The shards of a reachable exporter never have [pending] set: the loop
    writes the flag of its own copy. *)
Lemma reachable_pending_false o t0 st s :
  reachable o t0 st → s ∈ shards (exp st) → pending s = false.
Proof.
  intros (He&_)%Inv_reachable Hs. rewrite He in Hs. cbn [shards] in Hs.
  apply list_elem_of_lookup in Hs as [i Hi].
  by apply lookup_newShards_Some in Hi as [-> _].
Qed.

Lemma run_after evs st : runs evs st = true → run evs st = Some (after evs st).
Proof. unfold runs, after. by destruct (run evs st). Qed.

Lemma reachable_after o t0 evs :
  runs evs (initState o t0) = true → reachable o t0 (after evs (initState o t0)).
Proof. intros Hr. exists evs. by apply run_after. Qed.

(** ** [Export] is a run of enqueue events and one trigger *)

Lemma run_app (evs1 evs2 : list event) st st1 :
  run evs1 st = Some st1 → run (evs1 ++ evs2) st = run evs2 st1.
Proof.
  revert st. induction evs1 as [|ev evs1 IH]; intros st Hrun; simpl in *.
  { by inversion Hrun. }
  destruct (step ev st) as [st2|]; [by apply IH|done].
Qed.

Lemma run_app_None (evs1 evs2 : list event) st :
  run evs1 st = None → run (evs1 ++ evs2) st = None.
Proof.
  revert st. induction evs1 as [|ev evs1 IH]; intros st Hrun; simpl in *; [done|].
  destruct (step ev st) as [st2|]; [by apply IH|done].
Qed.

Lemma step_after evs ev st :
  runs (evs ++ [ev]) st = true →
  step ev (after evs st) = Some (after (evs ++ [ev]) st).
Proof.
  unfold runs, after. destruct (run evs st) as [st1|] eqn:H1.
  - rewrite (run_app _ _ _ _ H1). simpl. by destruct (step ev st1).
  - by rewrite run_app_None.
Qed.

Section ExportProps.

Context {Target RefSample : Type}.
Variable next :
  Target → list RefSample → option Sample * N * list RefSample * option string.

Lemma exportLoop_run fuel target samples st st' :
  exportLoop next fuel target samples st = Some (Returns st') →
  run (enqueueEvents (emitted next fuel target samples)) st = Some st'.
Proof.
  revert samples st. induction fuel as [|fuel IH]; intros samples st Hx.
  { destruct samples; simpl in *; [by inversion Hx|done]. }
  destruct samples as [|r samples]; simpl in *; [by inversion Hx|].
  destruct (next target (r :: samples)) as [[[x h] rest] err].
  destruct err as [msg|]; [done|].
  destruct x as [x|]; [|by apply IH].
  simpl. by apply IH.
Qed.

Lemma Export_run fuel target samples st st' :
  Export next fuel target samples st = Some (Returns st') →
  run (enqueueEvents (emitted next fuel target samples) ++ [EvTrigger]) st = Some st'.
Proof.
  unfold Export. intros Hx.
  destruct (exportLoop next fuel target samples st) as [[st1|msg]|] eqn:Hl; [|done|done].
  inversion Hx; subst st'.
  by rewrite (run_app _ _ _ st1) by by apply exportLoop_run.
Qed.

(** If the builder consumes at least one sample per call, as many rounds
    as there are samples are enough. *)
Lemma exportLoop_total fuel target samples st :
  (∀ t l, l ≠ [] → length (next t l).1.2 < length l) →
  length samples ≤ fuel → exportLoop next fuel target samples st ≠ None.
Proof.
  intros Hnext. revert samples st.
  induction fuel as [|fuel IH]; intros samples st Hlen.
  { by destruct samples; simpl in *; [|lia]. }
  destruct samples as [|r samples]; simpl; [done|].
  pose proof (Hnext target (r :: samples)) as Hn.
  destruct (next target (r :: samples)) as [[[x h] rest] err].
  simpl in Hn. destruct err; [done|].
  apply IH. assert (length rest < S (length samples)) by by apply Hn. simpl in Hlen. lia.
Qed.

End ExportProps.

(** ** [New] *)

Lemma registerAll_fresh (cs : list string) (r : Registry) :
  NoDup cs → (∀ n, n ∈ cs → n ∉ r) → registerAll cs r = Returns (r ++ cs).
Proof.
  revert r. induction cs as [|n cs IH]; intros r Hnd Hfresh; simpl.
  { by rewrite app_nil_r. }
  apply NoDup_cons in Hnd as [Hn Hnd].
  rewrite bool_decide_eq_false_2 by (apply Hfresh; by left).
  rewrite IH; [by rewrite <- app_assoc|done|].
  intros m Hm [Hin| ->%list_elem_of_singleton]%elem_of_app.
  - by apply (Hfresh m); [right|].
  - done.
Qed.

Lemma exporterCounters_NoDup : NoDup exporterCounters.
Proof. apply (bool_decide_unpack _). vm_compute. exact I. Qed.

(** On a registry that holds one of the collectors already,
    [MustRegister] panics. *)
Lemma registerAll_used (cs : list string) (r : Registry) :
  (∃ n, n ∈ cs ∧ n ∈ r) →
  registerAll cs r = Panics "duplicate metrics collector registration attempted".
Proof.
  revert r. induction cs as [|c cs IH]; intros r (n&Hn&Hr); simpl.
  { by apply elem_of_nil in Hn. }
  case_bool_decide as Hc; [done|].
  apply IH. exists n. split; [|apply elem_of_app; by left].
  apply elem_of_cons in Hn as [->|Hn]; [done|exact Hn].
Qed.

(** C10 — construction is not free of side effects on error.  [New] is
    called with a registry and an empty project ID.  If the registry holds
    none of the six counters, [New] returns no exporter and the error, and
    the registry it leaves behind has the six counters added: it is no
    longer the registry that was passed in.  If the registry holds one of
    them already, [MustRegister] panics before the project ID is looked
    at, and [New] returns nothing. *)
Theorem C10_New_registers_before_failing (reg : Registry) (o : ExporterOpts) :
  ProjectID o = "" →
  ((∀ n, n ∈ exporterCounters → n ∉ reg) →
     New (Sample:=Sample) (Some reg) o =
       Returns (mkNewResult (Some (reg ++ exporterCounters)) None
                            (Some "GCP project ID missing")) ∧
     reg ++ exporterCounters ≠ reg) ∧
  ((∃ n, n ∈ exporterCounters ∧ n ∈ reg) →
     New (Sample:=Sample) (Some reg) o =
       Panics "duplicate metrics collector registration attempted") ∧
  length exporterCounters = 6.
Proof.
  intros Hp. split_and!; [| |done].
  - intros Hfresh. split.
    + unfold New, MustRegister, Registry_Registerer.
      rewrite registerAll_fresh by (done || apply exporterCounters_NoDup).
      by rewrite bool_decide_eq_true_2.
    + intros Heq. apply (f_equal length) in Heq.
      rewrite length_app in Heq. simpl in Heq. lia.
  - intros Hused. unfold New, MustRegister, Registry_Registerer.
    by rewrite registerAll_used.
Qed.

(** The registration comes first: on a registry that already holds the
    counters [New] panics, empty project ID or not. *)
Lemma New_registers_first :
  New (Sample:=Sample) (Some exporterCounters) (mkOpts "" "" "") =
    Panics "duplicate metrics collector registration attempted".
Proof. reflexivity. Qed.

(** With a project ID the exporter is built, 512 shards over 512 queues. *)
Lemma New_ok (reg : Registry) (o : ExporterOpts) :
  ProjectID o ≠ "" → (∀ n, n ∈ exporterCounters → n ∉ reg) →
  New (Sample:=Sample) (Some reg) o =
    Returns (mkNewResult (Some (reg ++ exporterCounters))
                         (Some (mkExporter o newShards, newChans)) None).
Proof.
  intros Hp Hfresh. unfold New, MustRegister, Registry_Registerer.
  rewrite registerAll_fresh by (done || apply exporterCounters_NoDup).
  by rewrite bool_decide_eq_false_2.
Qed.

End Properties.

(** * Further properties of the exporter *)

Section MoreProperties.

Context {Sample : Type}.

Local Abbreviation State := (@State Sample).
Local Abbreviation queueEntry := (@queueEntry Sample).
Local Abbreviation chan := (@chan Sample).
Local Abbreviation task := (@task Sample).
Local Abbreviation Fine := (@Fine Sample).

Implicit Types (st : State) (e : queueEntry) (c : chan) (s : shard).

(** ** Induction over the statements of a drain pass

    A property kept by each statement of the pass is kept by the pass. *)
Section DrainInduction.

Variable P : State → Prop.
Hypothesis P_iterations :
  ∀ st, P st → P (set_metrics (addSendIterations 1 (metrics st)) st).
Hypothesis P_process :
  ∀ st, P st → P (set_metrics (addShardProcess 1 (metrics st)) st).
Hypothesis P_pending :
  ∀ st s, P st → s ∈ shards (exp st) → pending s = true →
    P (set_metrics (addShardProcessPending 1 (metrics st)) st).
Hypothesis P_round :
  ∀ st s e c c', P st → length (batch st) < batchCap →
    chans st !! queue s = Some c → chan_recv c = Some (e, c') →
    P (appendEntry e (set_chans (<[queue s := c']> (chans st)) st)).
Hypothesis P_mark : ∀ st s, P st → P (markPending s st).
Hypothesis P_full : ∀ st, P st → length (batch st) = batchCap → P (send st).
Hypothesis P_trigger : ∀ st, P st → P (triggerNext st).
Hypothesis P_offset : ∀ st n, P st → P (set_shardOffset n st).

Lemma fillBatch_ind' fuel s st : P st → P (fillBatch fuel s st).
Proof.
  revert st. induction fuel as [|fuel IH]; intros st HP; simpl; [done|].
  destruct (Nat.ltb_spec (length (batch st)) batchCap) as [Hlt|]; [|done].
  destruct (shard_get_cases s st) as [->|(e&c&c'&Hc&Hr&->)]; [done|].
  apply IH. by eapply P_round.
Qed.

Lemma flushIfFull_ind' st : P st → P (flushIfFull st).
Proof.
  intros HP. unfold flushIfFull.
  destruct (Nat.eqb_spec (length (batch st)) batchCap); [by apply P_full|done].
Qed.

Lemma visit_ind' i st : P st → P (visit i st).
Proof.
  intros HP. unfold visit. cbv zeta.
  set (st1 := set_metrics _ st).
  assert (P st1) as H1 by by apply P_process.
  destruct (shards (exp st1) !! _) as [s|] eqn:Hs; [|done].
  destruct (pending s) eqn:Hp.
  { apply (P_pending st1 s); [done| |done]. by eapply list_elem_of_lookup_2. }
  apply flushIfFull_ind'.
  pose proof (fillBatch_ind' (S (qlen s st1)) s st1 H1) as H2.
  destruct (_ <? _); [by apply P_mark|done].
Qed.

Lemma shardLoop_ind' fuel i st : P st → P (shardLoop fuel i st).2.
Proof.
  revert i st. induction fuel as [|fuel IH]; intros i st HP; simpl; [done|].
  destruct (i <? _); [|done]. by apply IH, visit_ind'.
Qed.

Lemma drainPass_ind' st : P st → P (drainPass st).
Proof.
  intros HP. unfold drainPass. cbv zeta.
  set (st1 := set_metrics _ st).
  assert (P st1) as H1 by by apply P_iterations.
  pose proof (shardLoop_ind' (length (shards (exp st1))) 0 st1 H1) as H2.
  destruct (shardLoop _ 0 st1) as [i st2]. simpl in H2.
  apply P_offset. destruct (i <? _); [by apply P_trigger|done].
Qed.

End DrainInduction.

(** ** The way of a shard's points through the exporter *)

Lemma taken_send st : taken (send st) = taken st.
Proof.
  unfold taken, send. simpl.
  rewrite fmap_app, concat_app. simpl. by rewrite !app_nil_r.
Qed.

Lemma taken_appendEntry e st : taken (appendEntry e st) = taken st ++ [e].
Proof.
  unfold appendEntry. case_bool_decide.
  - rewrite <- (taken_send st). unfold taken. simpl. by rewrite app_nil_r.
  - unfold taken. simpl. by rewrite app_assoc.
Qed.

Lemma queued_insert (cs : list chan) q c' j st :
  q < length cs →
  queued j (set_chans (<[q := c']> cs) st) =
    if decide (q = j) then buf c' else queued j (set_chans cs st).
Proof.
  intros Hq. unfold queued. simpl. case_decide as Hj.
  - subst j. by rewrite list_lookup_insert_eq.
  - by rewrite list_lookup_insert_ne.
Qed.

Lemma queuesSorted_recv (cs : list chan) q c e c' :
  queuesSorted cs → cs !! q = Some c → chan_recv c = Some (e, c') →
  queuesSorted (<[q := c']> cs) ∧ shardOf (hash e) = q.
Proof.
  intros Hs Hc [Hb _]%chan_recv_Some. split.
  - intros j c2 e2 Hj He2. destruct (decide (q = j)) as [<-|Hne].
    + rewrite list_lookup_insert_eq in Hj by by apply lookup_lt_Some in Hc.
      inversion Hj; subst c2. apply (Hs _ c); [done|]. rewrite Hb. by right.
    + rewrite list_lookup_insert_ne in Hj by done. by apply (Hs j c2).
  - apply (Hs q c); [done|]. rewrite Hb. by left.
Qed.

Lemma ofShard_snoc j (b : list queueEntry) e :
  ofShard j (b ++ [e]) = ofShard j b ++ if decide (shardOf (hash e) = j) then [e] else [].
Proof. unfold ofShard. by rewrite filter_app, filter_singleton. Qed.

(** One round of the inner loop moves the oldest point of a queue to the
    end of the points taken. *)
Lemma pipeline_round j st s e c c' :
  queuesSorted (chans st) →
  chans st !! queue s = Some c → chan_recv c = Some (e, c') →
  pipeline j (appendEntry e (set_chans (<[queue s := c']> (chans st)) st))
    = pipeline j st.
Proof.
  intros Hs Hc Hr.
  destruct (queuesSorted_recv _ _ _ _ _ Hs Hc Hr) as [_ He].
  apply chan_recv_Some in Hr as [Hb _].
  unfold pipeline. rewrite taken_appendEntry.
  assert (queued j (appendEntry e (set_chans (<[queue s := c']> (chans st)) st))
          = if decide (queue s = j) then buf c' else queued j st) as ->.
  { unfold queued. rewrite chans_appendEntry. simpl.
    case_decide as Hj.
    - subst j. rewrite list_lookup_insert_eq; [done|]. by apply lookup_lt_Some in Hc.
    - by rewrite list_lookup_insert_ne. }
  assert (taken (set_chans (<[queue s := c']> (chans st)) st) = taken st) as -> by done.
  rewrite ofShard_snoc, He.
  destruct (decide (queue s = j)) as [<-|Hne].
  - unfold queued. rewrite Hc, Hb. by rewrite <- app_assoc.
  - by rewrite app_nil_r.
Qed.

Lemma pipeline_drainPass st :
  queuesSorted (chans st) → ∀ j, pipeline j (drainPass st) = pipeline j st.
Proof.
  intros Hs.
  apply (drainPass_ind'
           (λ st', queuesSorted (chans st') ∧ ∀ j, pipeline j st' = pipeline j st));
    try done.
  - intros st' s' e c c' [Hs' Hp] _ Hc Hr. split.
    + rewrite chans_appendEntry. simpl.
      by destruct (queuesSorted_recv _ _ _ _ _ Hs' Hc Hr).
    + intros j. rewrite <- Hp. by apply (pipeline_round j st' s' e c c').
  - intros st' [Hs' Hp] _. split; [done|]. intros j. rewrite <- Hp.
    unfold pipeline. by rewrite taken_send.
  - intros st' [Hs' Hp]. unfold triggerNext. by destruct (nextc st').
Qed.

Lemma pipeline_timerCase st j : pipeline j (timerCase st) = pipeline j st.
Proof.
  unfold timerCase. destruct (0 <? _); [|done].
  unfold pipeline. by rewrite taken_send.
Qed.

Lemma taken_shard_enqueue s h x st : taken (shard_enqueue s h x st) = taken st.
Proof.
  unfold shard_enqueue. cbv zeta. cbn [chans set_metrics].
  by destruct (chans st !! queue s) as [c|]; [destruct (chan_offer _ c)|].
Qed.

Lemma queued_shard_enqueue s h x st c j :
  chans st !! queue s = Some c →
  queued j (shard_enqueue s h x st) =
    queued j st ++
    if bool_decide (queue s = j) && (length (buf c) <? cap c)
    then [mkEntry h x] else [].
Proof.
  intros Hc. unfold shard_enqueue. cbv zeta. cbn [chans set_metrics].
  rewrite Hc. unfold chan_offer.
  destruct (length (buf c) <? cap c); cycle 1.
  { rewrite andb_false_r, app_nil_r. done. }
  rewrite andb_true_r. unfold queued. cbn [chans set_chans].
  case_bool_decide as Hj.
  - subst j. rewrite list_lookup_insert_eq by by apply lookup_lt_Some in Hc.
    by rewrite Hc.
  - rewrite list_lookup_insert_ne by done. by rewrite app_nil_r.
Qed.

Lemma pipeline_enqueue o st h x j :
  Inv o st →
  pipeline j (Exporter_enqueue h x st) = pipeline j st ++ arrivals j (EvEnqueue h x) st.
Proof.
  intros (He&Hc&_). rewrite (Exporter_enqueue_shard o) by done.
  destruct (chansOk_lookup _ (shardOf h) Hc (shardOf_lt h)) as (c&Hci&Hcap&Hlen).
  unfold pipeline.
  rewrite taken_shard_enqueue, (queued_shard_enqueue _ _ _ _ c) by done.
  rewrite <- app_assoc. do 2 f_equal.
  unfold arrivals. cbn [queue]. rewrite Hcap.
  case_bool_decide as Hj; [|done].
  subst j. unfold queued. by rewrite Hci.
Qed.

(** What one call of [Exporter.enqueue] does to the queues. *)
Lemma queued_Exporter_enqueue o st h x j :
  Inv o st →
  queued j (Exporter_enqueue h x st) =
    queued j st ++
    if bool_decide (j = shardOf h) && (length (queued j st) <? shardBufferSize)
    then [mkEntry h x] else [].
Proof.
  intros (He&Hc&_). rewrite (Exporter_enqueue_shard o) by done.
  destruct (chansOk_lookup _ (shardOf h) Hc (shardOf_lt h)) as (c&Hci&Hcap&Hlen).
  rewrite (queued_shard_enqueue _ _ _ _ c) by done. f_equal.
  cbn [queue]. rewrite Hcap.
  destruct (decide (j = shardOf h)) as [->|Hj].
  - rewrite !bool_decide_eq_true_2 by done. unfold queued. by rewrite Hci.
  - by rewrite !bool_decide_eq_false_2 by done.
Qed.

Lemma ofSeries_ofShard h (b : list queueEntry) :
  ofSeries h (ofShard (shardOf h) b) = ofSeries h b.
Proof. apply list_filter_filter_l. by intros e ->. Qed.

Lemma seriesLine_pipeline h st :
  seriesLine h st = ofSeries h (pipeline (shardOf h) st).
Proof.
  unfold seriesLine, pipeline, ofSeries.
  rewrite filter_app. f_equal. symmetry. apply ofSeries_ofShard.
Qed.

(** X1 — per-shard order.  No step of the enqueue path or of the drain
    loop loses, duplicates or reorders a point: the points of a shard,
    from those handed to goroutines over the batch to the queue, stay as
    they are, and an accepted [Exporter.enqueue] adds its point at the
    end.  The same holds for the points of one series. *)
Theorem X1_shard_order_kept o t0 st ev st' :
  reachable o t0 st → step ev st = Some st' → (∀ k err, ev ≠ EvSend k err) →
  (∀ j, pipeline j st' = pipeline j st ++ arrivals j ev st) ∧
  (∀ h, seriesLine h st' = seriesLine h st ++ ofSeries h (arrivals (shardOf h) ev st)).
Proof.
  intros Hre Hstep Hns.
  pose proof (Inv_reachable o t0 st Hre) as HI.
  assert (∀ j, pipeline j st' = pipeline j st ++ arrivals j ev st) as Hp.
  { pose proof HI as (He&Hc&Hq&_).
    destruct ev as [h x| | | | |dt|k err]; simpl in Hstep.
    - inversion Hstep; subst st'. intros j. by apply (pipeline_enqueue o).
    - inversion Hstep; subst st'. intros j. simpl. rewrite app_nil_r.
      unfold triggerNext. by destruct (nextc st).
    - destruct (negb (returned st) && nextc st); [|done].
      inversion Hstep; subst st'. intros j. simpl. rewrite app_nil_r.
      by rewrite pipeline_drainPass.
    - destruct (negb (returned st) && C (timer st)); [|done].
      inversion Hstep; subst st'. intros j. simpl. rewrite app_nil_r.
      by rewrite pipeline_timerCase.
    - destruct (negb (returned st)); [|done].
      inversion Hstep; subst st'. intros j. simpl. by rewrite app_nil_r.
    - case_bool_decide; [|done].
      inversion Hstep; subst st'. intros j. simpl. by rewrite app_nil_r.
    - by destruct (Hns k err). }
  split; [done|]. intros h.
  rewrite !seriesLine_pipeline, Hp. unfold ofSeries. by rewrite filter_app.
Qed.

(** ** Counting the points *)

Lemma sum_list_with_insert {A} (f : A → nat) (l : list A) i x y :
  l !! i = Some x →
  sum_list_with f (<[i := y]> l) + f x = sum_list_with f l + f y.
Proof.
  revert i. induction l as [|a l IH]; intros [|i] Hi; simpl in *; try done.
  - inversion Hi; subst. lia.
  - specialize (IH i Hi). lia.
Qed.

Lemma length_concat_delete {A B} (l : list (list A * B)) k (t : list A * B) :
  l !! k = Some t →
  length (concat (fst <$> delete k l)) + length t.1 = length (concat (fst <$> l)).
Proof.
  revert k. induction l as [|a l IH]; intros [|k] Hk; try done.
  - inversion Hk; subst. rewrite fmap_cons. simpl. rewrite length_app. lia.
  - specialize (IH k Hk). simpl delete. rewrite !fmap_cons. simpl concat.
    rewrite !length_app. lia.
Qed.

Lemma held_round st s e c c' :
  chans st !! queue s = Some c → chan_recv c = Some (e, c') →
  held (appendEntry e (set_chans (<[queue s := c']> (chans st)) st)) = held st.
Proof.
  intros Hc [Hb _]%chan_recv_Some. unfold held.
  rewrite taken_appendEntry, chans_appendEntry, length_app.
  cbn [chans set_chans length].
  pose proof (sum_list_with_insert (λ c, length (buf c)) _ _ _ c' Hc) as Hsum.
  cbn beta in Hsum. rewrite Hb in Hsum. cbn [length] in Hsum.
  assert (taken (set_chans (<[queue s := c']> (chans st)) st) = taken st) as -> by done.
  lia.
Qed.

Lemma pointCounters_appendEntry e st :
  pointCounters (appendEntry e st) = pointCounters st.
Proof. unfold appendEntry. by case_bool_decide. Qed.

(** A drain pass keeps every point it finds and touches none of the
    point counters. *)
Lemma held_drainPass st :
  held (drainPass st) = held st ∧
  pointCounters (drainPass st) = pointCounters st ∧
  backend (drainPass st) = backend st.
Proof.
  apply (drainPass_ind'
           (λ st', held st' = held st ∧ pointCounters st' = pointCounters st ∧
                   backend st' = backend st)); try done.
  - intros st' s' e c c' (Hh&Hp&Hb) _ Hc Hr. split_and!.
    + rewrite <- Hh. by apply (held_round st' s' e c c').
    + by rewrite pointCounters_appendEntry.
    + rewrite <- Hb. unfold appendEntry. by case_bool_decide.
  - intros st' (Hh&Hp&Hb) _. split_and!; [|done|done].
    rewrite <- Hh. unfold held. by rewrite taken_send.
  - intros st' (Hh&Hp&Hb). unfold triggerNext. by destruct (nextc st').
Qed.

Lemma held_init o t0 : held (initState (Sample:=Sample) o t0) = 0.
Proof.
  unfold held, taken, initState. cbn [chans inflight batch].
  assert (∀ n, sum_list_with (λ c : chan, length (buf c))
                 (replicate n (mkChan [] shardBufferSize)) = 0) as Hn.
  { induction n as [|n IH]; [done|]. simpl. exact IH. }
  unfold newChans. by rewrite Hn.
Qed.

Lemma accounted_ext n st st' :
  held st' = held st → requested st' = requested st →
  pointCounters st' = pointCounters st → accounted n st → accounted n st'.
Proof.
  unfold accounted, pointCounters. intros -> -> [= -> -> ->]. done.
Qed.

Lemma accounted_enqueue o n h x st :
  Inv o st → accounted n st → accounted n (Exporter_enqueue h x st).
Proof.
  intros (He&Hc&_) [Ha Hs]. rewrite (Exporter_enqueue_shard o) by done.
  destruct (chansOk_lookup _ (shardOf h) Hc (shardOf_lt h)) as (c&Hci&Hcap&Hlen).
  unfold accounted, held, requested.
  rewrite taken_shard_enqueue.
  unfold shard_enqueue. cbv zeta. cbn [queue chans set_metrics metrics].
  rewrite Hci. unfold chan_offer.
  destruct (length (buf c) <? cap c); cbn [chans set_chans set_metrics metrics backend
    samplesExported samplesDropped samplesSent addSamplesExported addSamplesDropped].
  - pose proof (sum_list_with_insert (λ c, length (buf c)) _ _ _
                  (mkChan (buf c ++ [mkEntry h x]) (cap c)) Hci) as Hsum.
    cbn beta in Hsum. cbn [buf] in Hsum. rewrite length_app in Hsum.
    cbn [length] in Hsum. unfold held, requested in Ha, Hs.
    split; [|done]. rewrite Ha. lia.
  - unfold held, requested in Ha, Hs. split; [|done]. rewrite Ha. lia.
Qed.

(** The goroutine is its two halves, one after the other. *)
Lemma sendTask_split err (t : task) st :
  sendTask err t st = sendReturn err t (sendCall t st).
Proof. destruct t as [b cs]. by destruct err. Qed.

(** Issuing a request moves its points from those held to those
    requested; they are open until the call returns. *)
Lemma accounted_sendCall n k (t : task) st :
  inflight st !! k = Some t → accounted n st →
  accounted (n + length t.1) (sendCall t (set_inflight (delete k (inflight st)) st)).
Proof.
  intros Hk [Ha Hs].
  pose proof (length_concat_delete _ _ _ Hk) as Hd.
  unfold accounted, held, requested, taken, sendCall in *.
  cbn [chans batch inflight backend metrics set_backend set_inflight].
  rewrite sum_list_with_app, !length_app in *.
  cbn [sum_list_with TimeSeries] in *.
  unfold task in *. split; lia.
Qed.

(** The return of a call adds its points to [samplesSent]. *)
Lemma accounted_sendReturn n err (t : task) st :
  accounted (n + length t.1) st → accounted n (sendReturn err t st).
Proof.
  intros [Ha Hs].
  assert (∀ st', chans st' = chans st → batch st' = batch st →
    inflight st' = inflight st → backend st' = backend st →
    metrics st' = addSamplesSent (N.of_nat (length t.1)) (metrics st) →
    accounted n st') as Hgen.
  { intros st' E1 E2 E3 E4 E5. unfold accounted, held, requested, taken in *.
    rewrite E1, E2, E3, E4, E5.
    cbn [samplesExported samplesDropped samplesSent addSamplesSent].
    split; lia. }
  unfold sendReturn. destruct err; by apply Hgen.
Qed.

Lemma accounted_sendTask n err k (t : task) st :
  inflight st !! k = Some t → accounted n st →
  accounted n (sendTask err t (set_inflight (delete k (inflight st)) st)).
Proof.
  intros Hk Ha. rewrite sendTask_split.
  by apply accounted_sendReturn, accounted_sendCall.
Qed.

Lemma accounted_step o n ev st st' :
  Inv o st → accounted n st → step ev st = Some st' → accounted n st'.
Proof.
  intros HI Ha Hstep. destruct ev as [h x| | | | |dt|k err]; simpl in Hstep.
  - inversion Hstep; subst. by apply (accounted_enqueue o).
  - inversion Hstep; subst. unfold triggerNext. by destruct (nextc st).
  - destruct (negb (returned st) && nextc st); [|done].
    inversion Hstep; subst.
    destruct (held_drainPass (set_nextc false st)) as (Hh&Hp&Hb).
    eapply accounted_ext; [exact Hh| |exact Hp|done].
    unfold requested. by rewrite Hb.
  - destruct (negb (returned st) && C (timer st)); [|done].
    inversion Hstep; subst. unfold timerCase.
    destruct (0 <? _); [|done].
    eapply accounted_ext; [| | |exact Ha]; [|done|done].
    unfold held. by rewrite taken_send.
  - destruct (negb (returned st)); [|done]. by inversion Hstep; subst.
  - case_bool_decide; [|done]. by inversion Hstep; subst.
  - destruct (inflight st !! k) as [t|] eqn:Hk; [|done].
    inversion Hstep; subst. by apply accounted_sendTask.
Qed.

(** ** The two-step model *)

Lemma Inv_fstep o ev (f f' : Fine) :
  Inv o (base f) → fstep ev f = Some f' → Inv o (base f').
Proof.
  intros HI Hstep. destruct ev as [ev|k|k err]; simpl in Hstep.
  - destruct (step ev (base f)) as [st'|] eqn:Hs; [|done].
    inversion Hstep; subst. by eapply Inv_step.
  - destruct (inflight (base f) !! k) as [t|] eqn:Hk; [|done].
    inversion Hstep; subst. cbn [base].
    destruct HI as (He&Hc&Hq&Ho&Ht&Hr).
    pose proof (restInv_sendTask None k t _ Hk Hr) as Hr'.
    split_and!; try done.
    eapply restInv_ext; [..|exact Hr']; by destruct t.
  - destruct (calls f !! k) as [t|] eqn:Hk; [|done].
    inversion Hstep; subst. cbn [base].
    destruct HI as (He&Hc&Hq&Ho&Ht&Hr). unfold sendReturn.
    destruct err; split_and!; try done; by eapply restInv_ext; [..|exact Hr].
Qed.

Lemma accounted_fstep o ev (f f' : Fine) :
  Inv o (base f) → accounted (openPoints f) (base f) → fstep ev f = Some f' →
  accounted (openPoints f') (base f').
Proof.
  intros HI Ha Hstep. destruct ev as [ev|k|k err]; simpl in Hstep.
  - destruct (step ev (base f)) as [st'|] eqn:Hs; [|done].
    inversion Hstep; subst. by eapply accounted_step.
  - destruct (inflight (base f) !! k) as [t|] eqn:Hk; [|done].
    inversion Hstep; subst. cbn [base]. unfold openPoints. cbn [calls].
    rewrite fmap_app, concat_app, length_app. cbn [fmap list_fmap concat].
    rewrite app_nil_r. by apply accounted_sendCall.
  - destruct (calls f !! k) as [t|] eqn:Hk; [|done].
    inversion Hstep; subst. cbn [base]. unfold openPoints. cbn [calls].
    apply accounted_sendReturn.
    pose proof (length_concat_delete _ _ _ Hk) as Hd.
    unfold openPoints in Ha. unfold task in *. by rewrite Hd.
Qed.

(** A run of events is a run of the two-step model with the same requests
    open throughout; so every reachable state is one of its states, with
    none open. *)
Lemma frun_events (evs : list event) st st' (cs : list task) :
  run evs st = Some st' → frun (FEvent <$> evs) (mkFine st cs) = Some (mkFine st' cs).
Proof.
  revert st. induction evs as [|ev evs IH]; intros st Hrun; simpl in Hrun.
  { by inversion Hrun. }
  rewrite fmap_cons. cbn [frun fstep base calls].
  destruct (step ev st) as [st1|]; [by apply IH|done].
Qed.

Lemma freachable_base o t0 st : reachable o t0 st → freachable o t0 (mkFine st []).
Proof. intros [evs Hrun]. exists (FEvent <$> evs). by apply frun_events. Qed.

(** [EvSend] is a call followed at once by its return. *)
Lemma frun_call_return k err (t : task) st (cs : list task) :
  inflight st !! k = Some t →
  frun [FCall k; FReturn (length cs) err] (mkFine st cs) =
    frun [FEvent (EvSend k err)] (mkFine st cs).
Proof.
  intros Hk. cbn [frun fstep step base calls]. rewrite Hk.
  cbn [base calls]. rewrite list_lookup_middle by done.
  cbn [base calls]. rewrite sendTask_split. do 2 f_equal.
  rewrite delete_middle. by rewrite app_nil_r.
Qed.

Lemma frun_fafter evs (f : Fine) : fruns evs f = true → frun evs f = Some (fafter evs f).
Proof. unfold fruns, fafter. by destruct (frun evs f). Qed.

Lemma freachable_fafter o t0 evs :
  fruns evs (mkFine (initState (Sample:=Sample) o t0) []) = true →
  freachable o t0 (fafter evs (mkFine (initState o t0) [])).
Proof. intros Hr. exists evs. by apply frun_fafter. Qed.

(** X2 — accounting.  The send goroutines are taken in two steps, the
    call of [CreateTimeSeries] and what follows its return, so that any
    number of requests can be open.  At every point of such a run the
    points counted by [samplesExported] are exactly those dropped, those
    still held (in a queue, in the batch or with a goroutine that has not
    called the backend) and those in the requests issued; and
    [samplesSent] is the number of points in the requests issued less
    those in the requests still open: it counts the requests that have
    returned, and equals the points requested when no request is open. *)
Theorem X2_points_accounted o t0 (f : Fine) :
  freachable o t0 f →
  samplesExported (metrics (base f)) =
    (N.of_nat (held (base f)) + N.of_nat (requested (base f))
     + samplesDropped (metrics (base f)))%N ∧
  (samplesSent (metrics (base f)) + N.of_nat (openPoints f))%N
    = N.of_nat (requested (base f)) ∧
  (calls f = [] → samplesSent (metrics (base f)) = N.of_nat (requested (base f))).
Proof.
  intros [evs Hrun].
  assert (accounted (openPoints f) (base f)) as [Ha Hs].
  { revert Hrun.
    assert (Inv o (base (mkFine (initState (Sample:=Sample) o t0) [])) ∧
            accounted (openPoints (mkFine (initState (Sample:=Sample) o t0) []))
                      (base (mkFine (initState (Sample:=Sample) o t0) []))) as H0.
    { split; [apply Inv_init|]. unfold accounted. cbn [base]. by rewrite held_init. }
    revert H0. generalize (mkFine (initState (Sample:=Sample) o t0) []).
    induction evs as [|ev evs IH]; intros f0 [HI Ha] Hrun; simpl in Hrun.
    { by inversion Hrun; subst. }
    destruct (fstep ev f0) as [f1|] eqn:Hs; [|done].
    apply (IH f1); [|done].
    split; [by eapply Inv_fstep|by eapply accounted_fstep]. }
  split; [done|]. split; [done|].
  intros Hnil. unfold openPoints in Hs. rewrite Hnil in Hs. simpl in Hs. lia.
Qed.

(** ** Induction over the events of a run *)

Lemma reachable_ind' o t0 (Q : State → Prop) :
  Q (initState o t0) →
  (∀ ev st st', Inv o st → Q st → step ev st = Some st' → Q st') →
  ∀ st, reachable o t0 st → Q st.
Proof.
  intros Q0 Qstep st [evs Hrun]. revert Hrun.
  assert (Inv o (initState (Sample:=Sample) o t0) ∧ Q (initState o t0)) as H0.
  { split; [apply Inv_init|done]. }
  revert H0. generalize (initState (Sample:=Sample) o t0).
  induction evs as [|ev evs IH]; intros st0 [HI HQ] Hrun; simpl in Hrun.
  { by inversion Hrun; subst. }
  destruct (step ev st0) as [st1|] eqn:Hs; [|done].
  apply (IH st1); [|done]. split; [by eapply Inv_step|by eapply Qstep].
Qed.

(** ** What is sent *)

Lemma batch_nonempty_seen e st :
  batchInv st → hash e ∈ seen st → batch st ≠ [].
Proof.
  intros (_&Hs&_) Hin Hb. rewrite Hs, Hb in Hin. by apply not_elem_of_empty in Hin.
Qed.

Lemma sendsOk_send o st : batch st ≠ [] → sendsOk o st → sendsOk o (send st).
Proof.
  intros Hb [Hi Hr]. split; [|done]. unfold send. simpl.
  apply Forall_app. split; [done|]. by apply Forall_singleton.
Qed.

Lemma sendsOk_drainPass o st :
  batchInv st → sendsOk o st → sendsOk o (drainPass st).
Proof.
  intros Hb Hs.
  apply (drainPass_ind' (λ st', batchInv st' ∧ sendsOk o st')); try done.
  - intros st' s' e c c' [Hb' Hs'] Hlt Hc Hr.
    set (st1 := set_chans _ st').
    assert (batchInv st1) as Hb1 by by eapply batchInv_ext; [..|exact Hb'].
    split; [by apply batchInv_appendEntry|].
    unfold appendEntry. case_bool_decide as Hin; [|done].
    destruct (sendsOk_send o st1) as [Hi1 Hr1]; [by eapply batch_nonempty_seen|done|].
    done.
  - intros st' [Hb' Hs'] Hfull. split; [by apply batchInv_send|].
    apply sendsOk_send; [|done]. intros Hnil. rewrite Hnil in Hfull. done.
  - intros st' [Hb' Hs']. unfold triggerNext. by destruct (nextc st').
Qed.

(** X3 — what is sent.  No goroutine is ever started on an empty batch,
    and every [CreateTimeSeries] request carries at least one point and
    the name [projects/<ProjectID>] of the options the exporter was built
    with. *)
Theorem X3_requests_nonempty_and_named o t0 st :
  reachable o t0 st →
  (∀ t : task, t ∈ inflight st → t.1 ≠ []) ∧
  (∀ r, r ∈ backend st →
     TimeSeries r ≠ [] ∧ Name r = "projects/" +:+ ProjectID o).
Proof.
  intros Hre.
  assert (sendsOk o st) as [Hi Hr].
  { revert st Hre. apply reachable_ind'.
    { split; constructor. }
    intros ev st st' HI Hs Hstep.
    pose proof HI as (He&_&_&_&_&[Hb Hlt]).
    destruct ev as [h x| | | | |dt|k err]; simpl in Hstep.
    - inversion Hstep; subst. rewrite (Exporter_enqueue_shard o) by done.
      unfold shard_enqueue. cbv zeta. cbn [chans set_metrics].
      by destruct (chans st !! _) as [c|]; [destruct (chan_offer _ c)|].
    - inversion Hstep; subst. unfold triggerNext. by destruct (nextc st).
    - destruct (negb (returned st) && nextc st); [|done].
      inversion Hstep; subst. apply sendsOk_drainPass; [|done].
      by eapply batchInv_ext; [..|exact Hb].
    - destruct (negb (returned st) && C (timer st)); [|done].
      inversion Hstep; subst. unfold timerCase.
      destruct (Nat.ltb_spec 0 (length (batch (set_timer
        (mkTimer (active (timer st)) (when (timer st)) false) st)))) as [Hpos|]; [|done].
      apply sendsOk_send; [|done]. intros Hnil. rewrite Hnil in Hpos. simpl in Hpos. lia.
    - destruct (negb (returned st)); [|done]. by inversion Hstep; subst.
    - case_bool_decide; [|done]. by inversion Hstep; subst.
    - destruct (inflight st !! k) as [t|] eqn:Hk; [|done].
      inversion Hstep; subst. destruct Hs as [Hi Hr]. destruct t as [b cs].
      assert (b ≠ []) as Hb' by apply (Forall_lookup_1 _ _ _ _ Hi Hk).
      assert (∀ st', inflight st' = delete k (inflight st) →
        backend st' = backend st ++
          [mkRequest ("projects/" +:+ ProjectID (opts (exp st))) b] →
        sendsOk o st') as Hgen.
      { intros st' E1 E2. unfold sendsOk. rewrite E1, E2. split.
        - by apply Forall_delete.
        - apply Forall_app. split; [done|]. apply Forall_singleton.
          split; [done|]. simpl. by rewrite He. }
      unfold sendTask. destruct err; by apply Hgen. }
  split.
  - intros t Ht. by apply (proj1 (Forall_forall _ _) Hi).
  - intros r Hr'. by apply (proj1 (Forall_forall _ _) Hr).
Qed.

(** ** The timer is never lost *)

Lemma timerLive_send st : timerLive (send st).
Proof.
  unfold timerLive, send, Timer_Reset. simpl. split; [by left|]. intros _. lia.
Qed.

Lemma timerLive_drainPass st : timerLive st → timerLive (drainPass st).
Proof.
  apply (drainPass_ind' timerLive); try done.
  - intros st' s' e c c' Hl _ _ _. unfold appendEntry.
    case_bool_decide; [|done].
    unfold timerLive, send, Timer_Reset. cbn. split; [by left|]. intros _. lia.
  - intros st' _ _. apply timerLive_send.
  - intros st' Hl. unfold triggerNext. by destruct (nextc st').
Qed.

Lemma timerKept_reachable o t0 st : reachable o t0 st → timerKept st.
Proof.
  revert st. apply reachable_ind'.
  { unfold timerKept, timerLive. simpl. split; [by left|]. intros _. lia. }
  intros ev st st' HI Hl Hstep.
  pose proof HI as (He&_&_&_&Hok&_).
  destruct ev as [h x| | | | |dt|k err]; simpl in Hstep.
  - inversion Hstep; subst. rewrite (Exporter_enqueue_shard o) by done.
    unfold shard_enqueue. cbv zeta. cbn [chans set_metrics].
    by destruct (chans st !! _) as [c|]; [destruct (chan_offer _ c)|].
  - inversion Hstep; subst. unfold triggerNext. by destruct (nextc st).
  - destruct (returned st) eqn:Hret; [done|]. destruct (nextc st); [|done].
    inversion Hstep; subst. unfold timerKept in *.
    destruct (drainPass_frame (set_nextc false st)) as (_&_&->&_).
    cbn [returned set_nextc]. rewrite Hret in *. by apply timerLive_drainPass.
  - destruct (returned st) eqn:Hret; [done|]. destruct (C (timer st)); [|done].
    inversion Hstep; subst. unfold timerKept, timerCase.
    destruct (0 <? _); cbn [returned send set_timer set_inflight set_seen
      set_closers set_batch]; rewrite Hret; [apply timerLive_send|].
    unfold timerLive, Timer_Reset. simpl. split; [by left|]. intros _. lia.
  - destruct (returned st) eqn:Hret; [done|].
    inversion Hstep; subst. unfold timerKept, stopTimer, Timer_Stop. simpl.
    destruct (active (timer st)) eqn:Ha; simpl; [|done].
    split; [done|]. by apply Hok.
  - case_bool_decide as Hdt; [|done]. inversion Hstep; subst.
    unfold timerKept in *. cbn [returned set_timer set_now].
    destruct (returned st).
    + destruct Hl as [Ha HC]. unfold Timer_fire. by rewrite Ha.
    + destruct Hl as [Hac Hw]. unfold timerLive, Timer_fire. simpl.
      destruct (active (timer st)) eqn:Ha; simpl.
      * case_bool_decide as Hdue; simpl; [split; [by right|done]|].
        rewrite Ha. split; [by left|]. intros _. specialize (Hw eq_refl). lia.
      * rewrite Ha. split; [done|done].
  - destruct (inflight st !! k) as [t|] eqn:Hk; [|done].
    inversion Hstep; subst. destruct t as [b cs]. unfold sendTask.
    by destruct err.
Qed.

(** X4 — the flush timer is never lost while [Run] runs.  In every
    reachable state in which [Run] has not returned the timer is running
    or has fired, and a running timer is due no later than [batchDelayMax]
    from now; so once the clock has advanced by 5 s the timer case is
    ready, and taking it leaves the batch empty.  When [Run] returns, the
    deferred [stopTimer] leaves the timer stopped with nothing in its
    channel, and so it stays: after the return the clock never fires it and
    the timer case is never ready again. *)
Theorem X4_timer_never_lost o t0 st dt :
  reachable o t0 st → (batchDelayMax ≤ dt)%Z →
  (returned st = false →
     (active (timer st) = true ∨ C (timer st) = true) ∧
     (active (timer st) = true → (when (timer st) ≤ now st + batchDelayMax)%Z) ∧
     (∃ st1, step (EvTick dt) st = Some st1 ∧ C (timer st1) = true ∧
        batch st1 = batch st ∧
        ∃ st2, step EvTimer st1 = Some st2 ∧ batch st2 = []) ∧
     (∃ st3, step EvDone st = Some st3 ∧ returned st3 = true ∧
        active (timer st3) = false ∧ C (timer st3) = false)) ∧
  (returned st = true →
     active (timer st) = false ∧ C (timer st) = false ∧
     step EvTimer st = None ∧
     ∃ st1, step (EvTick dt) st = Some st1 ∧ timer st1 = timer st).
Proof.
  intros Hre Hdt.
  pose proof (timerKept_reachable o t0 st Hre) as Hk.
  pose proof (Inv_reachable o t0 st Hre) as (_&_&_&_&Hok&_).
  assert (0 ≤ dt)%Z as H0 by (unfold batchDelayMax, second in Hdt; lia).
  unfold timerKept in Hk. split; intros Hret; rewrite Hret in Hk.
  - destruct Hk as [Hac Hw]. split; [done|]. split; [done|]. split.
    + assert (C (Timer_fire (now st + dt) (timer st)) = true) as HC.
      { unfold Timer_fire. destruct (active (timer st)) eqn:Ha; simpl.
        - rewrite bool_decide_eq_true_2; [done|]. specialize (Hw eq_refl). lia.
        - by destruct Hac. }
      set (st1 := set_timer (Timer_fire (now st + dt) (timer st))
                    (set_now (now st + dt)%Z st)).
      exists st1. split; [unfold step; by rewrite bool_decide_eq_true_2|].
      split; [exact HC|]. split; [done|].
      assert (step EvTimer st1 = Some (timerCase (set_timer
                (mkTimer (active (timer st1)) (when (timer st1)) false) st1))) as Hstep.
      { unfold step. assert (returned st1 = false) as -> by exact Hret.
        assert (C (timer st1) = true) as -> by exact HC. done. }
      eexists. split; [exact Hstep|].
      unfold timerCase. cbn [batch set_timer].
      destruct (Nat.ltb_spec 0 (length (batch st1))) as [|Hz]; [done|].
      cbn [batch set_timer]. destruct (batch st1); [done|simpl in Hz; lia].
    + eexists. split; [unfold step; by rewrite Hret|]. split; [done|].
      unfold stopTimer, Timer_Stop. simpl.
      destruct (active (timer st)) eqn:Ha; simpl; [|done].
      split; [done|]. by apply Hok.
  - destruct Hk as [Ha HC]. split; [done|]. split; [done|]. split.
    + unfold step. by rewrite Hret.
    + eexists. split; [unfold step; by rewrite bool_decide_eq_true_2|].
      simpl. unfold Timer_fire. rewrite Ha. simpl. by destruct (timer st).
Qed.

(** ** The counters of the drain loop *)

Lemma addShardProcess_0 m : addShardProcess 0 m = m.
Proof. destruct m. unfold addShardProcess. simpl. by rewrite N.add_0_r. Qed.

Lemma addShardProcess_add a b m :
  addShardProcess a (addShardProcess b m) = addShardProcess (b + a) m.
Proof. unfold addShardProcess. simpl. by rewrite N.add_assoc. Qed.

Lemma metrics_fillBatch fuel s st : metrics (fillBatch fuel s st) = metrics st.
Proof.
  apply (fillBatch_ind' (λ st', metrics st' = metrics st)); [|done].
  intros st' s' e c c' Hm _ _ _. rewrite <- Hm.
  unfold appendEntry. by case_bool_decide.
Qed.

Lemma metrics_flushIfFull st : metrics (flushIfFull st) = metrics st.
Proof. unfold flushIfFull. by destruct (_ =? _). Qed.

Lemma metrics_visit i st :
  (∀ s, s ∈ shards (exp st) → pending s = false) →
  metrics (visit i st) = addShardProcess 1 (metrics st).
Proof.
  intros Hnp. unfold visit. cbv zeta.
  set (st1 := set_metrics _ st).
  destruct (shards (exp st1) !! _) as [s|] eqn:Hs; [|done].
  rewrite (Hnp s) by by eapply list_elem_of_lookup_2.
  rewrite metrics_flushIfFull.
  pose proof (metrics_fillBatch (S (qlen s st1)) s st1) as Hm.
  by destruct (_ <? _).
Qed.

Lemma metrics_shardLoop fuel i st :
  (∀ s, s ∈ shards (exp st) → pending s = false) →
  metrics (shardLoop fuel i st).2 =
    addShardProcess (N.of_nat (fuel `min` (length (shards (exp st)) - i))) (metrics st).
Proof.
  revert i st. induction fuel as [|fuel IH]; intros i st Hnp; simpl.
  { by rewrite addShardProcess_0. }
  destruct (Nat.ltb_spec i (length (shards (exp st)))) as [Hlt|Hge]; simpl.
  - destruct (sameOutside_visit i st) as (He&_).
    rewrite IH by by rewrite He.
    rewrite He, metrics_visit, addShardProcess_add by done.
    f_equal.
    destruct (length (shards (exp st)) - i) as [|m] eqn:Hm; [lia|].
    replace (length (shards (exp st)) - S i) with m by lia. lia.
  - replace (length (shards (exp st)) - i) with 0 by lia.
    by rewrite addShardProcess_0.
Qed.

Lemma metrics_drainPass st :
  (∀ s, s ∈ shards (exp st) → pending s = false) →
  metrics (drainPass st) =
    addShardProcess (N.of_nat (length (shards (exp st))))
      (addSendIterations 1 (metrics st)).
Proof.
  intros Hnp. unfold drainPass. cbv zeta.
  set (st1 := set_metrics _ st).
  pose proof (metrics_shardLoop (length (shards (exp st1))) 0 st1 Hnp) as Hm.
  destruct (shardLoop _ 0 st1) as [i st2]. simpl in Hm.
  transitivity (metrics st2).
  { unfold triggerNext. by destruct (i <? _); [destruct (nextc st2)|]. }
  rewrite Hm. by rewrite Nat.sub_0_r, Nat.min_id.
Qed.

(** X5 — the counters of the drain loop.  A drain pass adds one to
    [sendIterations] and 512 to [shardProcess] and nothing else to any
    counter.  In every reachable state [shardProcess] is 512 times
    [sendIterations], and [shardProcessPending] is still zero: no visit
    ever finds a shard pending. *)
Theorem X5_drain_counters o t0 st :
  reachable o t0 st →
  shardProcess (metrics st) = (512 * sendIterations (metrics st))%N ∧
  shardProcessPending (metrics st) = 0%N ∧
  (∀ st', step EvWake st = Some st' →
     metrics st' = addShardProcess 512 (addSendIterations 1 (metrics st))).
Proof.
  intros Hre.
  assert (∀ st : State, Inv o st → ∀ st', step EvWake st = Some st' →
            metrics st' = addShardProcess 512 (addSendIterations 1 (metrics st))) as Hwake.
  { intros st1 (He&_) st' Hstep. simpl in Hstep.
    destruct (negb (returned st1) && nextc st1); [|done].
    inversion Hstep; subst st'. rewrite metrics_drainPass.
    - simpl. rewrite He. cbn [shards]. by rewrite length_newShards.
    - intros s Hs. simpl in Hs. rewrite He in Hs. cbn [shards] in Hs.
      apply list_elem_of_lookup in Hs as [i Hi].
      by apply lookup_newShards_Some in Hi as [-> _]. }
  assert (shardProcess (metrics st) = (512 * sendIterations (metrics st))%N ∧
          shardProcessPending (metrics st) = 0%N) as [H1 H2].
  { revert st Hre. apply reachable_ind'; [done|].
    intros ev st st' HI [H1 H2] Hstep.
    destruct ev as [h x| | | | |dt|k err].
    - simpl in Hstep. inversion Hstep; subst.
      destruct HI as (He&_). rewrite (Exporter_enqueue_shard o) by done.
      unfold shard_enqueue. cbv zeta. cbn [chans set_metrics].
      by destruct (chans st !! _) as [c|]; [destruct (chan_offer _ c)|].
    - simpl in Hstep. inversion Hstep; subst. unfold triggerNext.
      by destruct (nextc st).
    - rewrite (Hwake st HI st' Hstep). simpl. split; [lia|done].
    - simpl in Hstep. destruct (negb (returned st) && C (timer st)); [|done].
      inversion Hstep; subst. unfold timerCase. by destruct (0 <? _).
    - simpl in Hstep. destruct (negb (returned st)); [|done].
      by inversion Hstep; subst.
    - simpl in Hstep. case_bool_decide; [|done]. by inversion Hstep; subst.
    - simpl in Hstep. destruct (inflight st !! k) as [t|] eqn:Hk; [|done].
      inversion Hstep; subst. destruct t as [b cs]. unfold sendTask.
      by destruct err. }
  split; [done|]. split; [done|].
  apply Hwake. by eapply Inv_reachable.
Qed.

(** ** Wake-ups coalesce *)

Lemma triggerNext_idem st : triggerNext (triggerNext st) = triggerNext st.
Proof. unfold triggerNext. by destruct (nextc st) eqn:Hn; simpl; rewrite ?Hn. Qed.

Lemma run_triggers k st :
  run (replicate k EvTrigger) (triggerNext st) = Some (triggerNext st).
Proof.
  induction k as [|k IH]; [done|]. simpl. by rewrite triggerNext_idem.
Qed.

(** X6 — wake-ups coalesce.  Any number of calls of [triggerNext] leave
    the exporter as one call does, and they enable one drain pass: after
    it the wake channel is empty and no second pass can start until the
    next call. *)
Theorem X6_wakeups_coalesce o t0 st k :
  reachable o t0 st → returned st = false →
  run (replicate (S k) EvTrigger) st = Some (triggerNext st) ∧
  ∃ st2, step EvWake (triggerNext st) = Some st2 ∧
    nextc st2 = false ∧ step EvWake st2 = None.
Proof.
  intros Hre Hret. split; [apply (run_triggers k)|].
  pose proof (Inv_reachable o t0 st Hre) as (He&_&_&Ho&_).
  assert (nextc (triggerNext st) = true) as Hn.
  { unfold triggerNext. by destruct (nextc st) eqn:Hn. }
  assert (returned (triggerNext st) = false) as Hr.
  { unfold triggerNext. by destruct (nextc st). }
  exists (drainPass (set_nextc false (triggerNext st))).
  split; [unfold step; by rewrite Hr, Hn|].
  destruct (drainPass_offset (set_nextc false (triggerNext st))) as [_ Hnx].
  { unfold triggerNext. destruct (nextc st); simpl; rewrite He; cbn [shards];
      rewrite length_newShards; unfold shardCount; lia. }
  { unfold triggerNext. destruct (nextc st); simpl; rewrite He, Ho; cbn [shards];
      rewrite length_newShards; unfold shardCount; lia. }
  split; [exact Hnx|]. unfold step. rewrite Hnx. by rewrite andb_false_r.
Qed.

(** ** A pass that sends nothing leaves nothing queued *)

Lemma shard_get_qlen s st :
  (shard_get s st = (None, st) ∧ qlen s st = 0) ∨
  ∃ e c c', chans st !! queue s = Some c ∧ chan_recv c = Some (e, c') ∧
    shard_get s st = (Some e, set_chans (<[queue s := c']> (chans st)) st) ∧
    qlen s st = S (length (buf c')).
Proof.
  unfold shard_get, qlen. destruct (chans st !! queue s) as [c|] eqn:Hc; [|by left].
  destruct (chan_recv c) as [[e c']|] eqn:Hr.
  - right. exists e, c, c'. split_and!; try done.
    apply chan_recv_Some in Hr as [-> _]. done.
  - left. split; [done|]. unfold chan_recv in Hr. by destruct (buf c).
Qed.

(** The inner loop stops on an empty queue or on a full batch. *)
Lemma fillBatch_stops fuel s st :
  qlen s st < fuel →
  qlen s (fillBatch fuel s st) = 0 ∨ batchCap ≤ length (batch (fillBatch fuel s st)).
Proof.
  revert st. induction fuel as [|fuel IH]; intros st Hf; [lia|]. simpl.
  destruct (Nat.ltb_spec (length (batch st)) batchCap) as [Hlt|Hge]; [|by right].
  destruct (shard_get_qlen s st) as [[-> Hq]|(e&c&c'&Hc&Hr&->&Hq)]; [by left|].
  apply IH. rewrite qlen_appendEntry. unfold qlen. simpl.
  rewrite list_lookup_insert_eq by by apply lookup_lt_Some in Hc. lia.
Qed.

(** It touches no queue but the shard's own. *)
Lemma fillBatch_other fuel s st j :
  j ≠ queue s → chans (fillBatch fuel s st) !! j = chans st !! j.
Proof.
  intros Hj. revert st. induction fuel as [|fuel IH]; intros st; simpl; [done|].
  destruct (length (batch st) <? batchCap); [|done].
  destruct (shard_get_cases s st) as [->|(e&c&c'&Hc&Hr&->)]; [done|].
  rewrite IH, chans_appendEntry. simpl. by rewrite list_lookup_insert_ne.
Qed.

Lemma queued_nil_qlen j b st : qlen (mkShard j b) st = 0 → queued j st = [].
Proof.
  unfold qlen, queued. simpl. destruct (chans st !! j) as [c|]; [|done].
  by intros ?%nil_length_inv.
Qed.

Lemma visit_stops o k st :
  exp st = mkExporter o newShards → shardOffset st = 0 →
  restInv st → timerOk (timer st) → k < shardCount →
  (∃ new, inflight (visit k st) = inflight st ++ new ∧
     (new ≠ [] ∨ queued k (visit k st) = [])) ∧
  (∀ j, j ≠ k → queued j (visit k st) = queued j st).
Proof.
  intros He Ho [Hb Hlt] Ht Hk. unfold visit. cbv zeta.
  set (st1 := set_metrics _ st).
  assert ((k + shardOffset st1) `mod` length (shards (exp st1)) = k) as ->.
  { unfold st1. simpl. rewrite He, Ho. cbn [shards].
    rewrite length_newShards, Nat.add_0_r. by apply Nat.mod_small. }
  assert (shards (exp st1) !! k = Some (mkShard k false)) as ->.
  { unfold st1. simpl. rewrite He. cbn [shards]. by apply lookup_newShards. }
  cbn [pending].
  set (s := mkShard k false).
  assert (batchInv st1) as Hb1 by by eapply batchInv_ext; [..|exact Hb].
  pose proof (batchInv_fillBatch (S (qlen s st1)) s st1 Hb1) as (_&_&Hle&_).
  destruct (sentSince_fillBatch (S (qlen s st1)) s st1 Ht) as (new2&Hnew2&_).
  pose proof (fillBatch_stops (S (qlen s st1)) s st1 (Nat.lt_succ_diag_r _)) as Hstop.
  pose proof (fillBatch_other (S (qlen s st1)) s st1) as Hother.
  set (st2 := fillBatch _ s st1) in *.
  set (st3 := if _ <? _ then markPending s st2 else st2).
  assert (inflight st3 = inflight st2 ∧ batch st3 = batch st2 ∧
          chans st3 = chans st2) as (Hi3&Hb3&Hc3).
  { unfold st3. by destruct (_ <? _). }
  split.
  - unfold flushIfFull. rewrite Hb3.
    destruct (Nat.eqb_spec (length (batch st2)) batchCap) as [Hfull|Hnf].
    + exists (new2 ++ [(batch st3, closers st3)]). split; [|left].
      * unfold send. simpl. rewrite Hi3, Hnew2. by rewrite app_assoc.
      * intros Hnil. by apply app_nil in Hnil as [_ ?].
    + exists new2. split; [by rewrite Hi3|right].
      unfold queued. rewrite Hc3. apply (queued_nil_qlen k false).
      fold s. destruct Hstop as [Hq|Hge]; [done|]. unfold batchCap in *. lia.
  - intros j Hj. unfold queued. rewrite chans_flushIfFull, Hc3.
    by rewrite Hother.
Qed.

Lemma shardLoop_empties o (l0 : list task) fuel k st :
  exp st = mkExporter o newShards → shardOffset st = 0 →
  restInv st → timerOk (timer st) →
  (∃ new, inflight st = l0 ++ new ∧ (new ≠ [] ∨ ∀ j, j < k → queued j st = [])) →
  ∃ new, inflight (shardLoop fuel k st).2 = l0 ++ new ∧
    (new ≠ [] ∨ ∀ j, j < shardCount `min` (k + fuel) → queued j (shardLoop fuel k st).2 = []).
Proof.
  revert k st. induction fuel as [|fuel IH]; intros k st He Ho Hr Ht (new&Hi&Hq).
  { exists new. split; [done|]. destruct Hq as [?|Hq]; [by left|right].
    intros j Hj. apply Hq. lia. }
  cbn [shardLoop]. rewrite He. cbn [shards]. rewrite length_newShards.
  destruct (Nat.ltb_spec k shardCount) as [Hk|Hk]; cbn [snd].
  - destruct (sameOutside_visit k st) as (He1&Ho1&_).
    destruct (visit_stops o k st He Ho Hr Ht Hk) as [(new1&Hi1&Hq1) Hother].
    destruct (IH (S k) (visit k st)) as (new'&Hi'&Hq').
    + congruence.
    + congruence.
    + by apply restInv_visit.
    + eapply sentSince_timerOk; [by apply sentSince_visit|done].
    + exists (new ++ new1). split; [by rewrite Hi1, Hi, app_assoc|].
      destruct Hq as [Hne|Hq].
      { left. intros Hnil. by apply app_nil in Hnil as [? _]. }
      destruct Hq1 as [Hne|Hq1].
      { left. intros Hnil. by apply app_nil in Hnil as [_ ?]. }
      right. intros j Hj. destruct (decide (j = k)) as [->|Hjk]; [done|].
      rewrite Hother by done. apply Hq. lia.
    + exists new'. split; [done|]. destruct Hq' as [?|Hq']; [by left|right].
      intros j Hj. apply Hq'. lia.
  - exists new. split; [done|]. destruct Hq as [?|Hq]; [by left|right].
    intros j Hj. apply Hq. lia.
Qed.

(** X7 — a pass that sends nothing leaves nothing queued.  The pass is
    taken as one step, with no call of [Exporter.enqueue] between its
    receive from [nextc] and its end.  If such a pass from a reachable
    state starts no goroutine, every queue is empty after it, and the
    batch holds, shard by shard, what it held before followed by what was
    queued.  A point enqueued once the pass is over is then alone in the
    queue of its shard: it waits for the next pass. *)
Theorem X7_quiet_pass_empties_queues o t0 st st' :
  reachable o t0 st → step EvWake st = Some st' → inflight st' = inflight st →
  (∀ j, queued j st' = []) ∧
  (∀ j, ofShard j (batch st') = ofShard j (batch st) ++ queued j st) ∧
  (∀ h x, queued (shardOf h) (Exporter_enqueue h x st') = [mkEntry h x]).
Proof.
  intros Hre Hstep Hsame.
  pose proof (Inv_reachable o t0 st Hre) as HI.
  pose proof (Inv_step o _ _ _ HI Hstep) as HI'.
  destruct HI as (He&Hc&Hq&Ho&Ht&Hr).
  simpl in Hstep. destruct (negb (returned st) && nextc st); [|done].
  inversion Hstep; subst st'. clear Hstep.
  assert (∀ j, queued j (drainPass (set_nextc false st)) = []) as Hempty.
  { intros j. destruct (decide (j < shardCount)) as [Hj|Hj]; cycle 1.
    { unfold queued. rewrite lookup_ge_None_2; [done|].
      destruct (chansOk_drainPass (set_nextc false st) Hc) as [-> _]. lia. }
    revert Hsame. unfold drainPass. cbv zeta.
    set (st1 := set_metrics _ (set_nextc false st)).
    destruct (shardLoop_empties o (inflight st) (length (shards (exp st1))) 0 st1)
      as (new&Hi&Hq').
    { done. } { done. } { by eapply restInv_ext; [..|exact Hr]. } { done. }
    { exists []. split; [by rewrite app_nil_r|]. right. intros ??. lia. }
    destruct (shardLoop _ 0 st1) as [i st2]. cbn [snd] in Hi, Hq'.
    intros Hsame.
    assert (inflight st2 = inflight st) as Hi2.
    { rewrite <- Hsame. unfold triggerNext.
      by destruct (i <? _); [destruct (nextc st2)|]. }
    destruct Hq' as [Hne|Hq'].
    { exfalso. rewrite Hi in Hi2. apply Hne.
      apply (f_equal length) in Hi2. rewrite length_app in Hi2.
      apply nil_length_inv. lia. }
    assert (queued j st2 = []) as Hj2.
    { apply Hq'. change (exp st1) with (exp st). rewrite He. cbn [shards].
      rewrite length_newShards. lia. }
    rewrite <- Hj2. unfold queued, triggerNext.
    by destruct (i <? _); [destruct (nextc st2)|]. }
  split; [done|]. split.
  - intros j.
    pose proof (pipeline_drainPass (set_nextc false st) Hq j) as Hp.
    unfold pipeline in Hp. rewrite Hempty, app_nil_r in Hp.
    unfold taken in Hp. rewrite Hsame in Hp. unfold ofShard in *.
    rewrite !filter_app in Hp. simpl in Hp.
    rewrite <- app_assoc in Hp. by apply app_inv_head in Hp.
  - intros h x. rewrite (queued_Exporter_enqueue o) by done.
    rewrite Hempty. by rewrite bool_decide_eq_true_2.
Qed.

(** ** The queue of a shard is first in, first out *)

(** X8 — enqueue then get.  On a queue that is not full, [shard.get]
    after [shard.enqueue] returns the oldest entry of the queue with the
    new point appended and leaves the rest; on a queue that held
    something already the two calls commute. *)
Theorem X8_enqueue_then_get s h x st c :
  chans st !! queue s = Some c → length (buf c) < cap c →
  (∃ e0 rest, buf c ++ [mkEntry h x] = e0 :: rest ∧
     shard_get s (shard_enqueue s h x st) =
       (Some e0,
        set_chans (<[queue s := mkChan rest (cap c)]> (chans st))
          (set_metrics (addSamplesExported 1 (metrics st)) st))) ∧
  (buf c ≠ [] →
     shard_get s (shard_enqueue s h x st) =
       ((shard_get s st).1, shard_enqueue s h x (shard_get s st).2)).
Proof.
  intros Hc Hlt.
  assert (queue s < length (chans st)) as Hq by by apply lookup_lt_Some in Hc.
  assert (shard_enqueue s h x st =
          set_chans (<[queue s := mkChan (buf c ++ [mkEntry h x]) (cap c)]> (chans st))
            (set_metrics (addSamplesExported 1 (metrics st)) st)) as Henq.
  { unfold shard_enqueue. cbv zeta. cbn [chans set_metrics]. rewrite Hc.
    unfold chan_offer. by destruct (Nat.ltb_spec (length (buf c)) (cap c)); [|lia]. }
  assert (∀ e0 rest, buf c ++ [mkEntry h x] = e0 :: rest →
     shard_get s (shard_enqueue s h x st) =
       (Some e0,
        set_chans (<[queue s := mkChan rest (cap c)]> (chans st))
          (set_metrics (addSamplesExported 1 (metrics st)) st))) as Hget.
  { intros e0 rest Hb. rewrite Henq. unfold shard_get. cbn [chans set_chans].
    rewrite list_lookup_insert_eq by done. unfold chan_recv. cbn [buf cap].
    rewrite Hb. unfold set_chans. cbn. by rewrite list_insert_insert_eq. }
  split.
  - destruct (buf c ++ [mkEntry h x]) as [|e0 rest] eqn:Hb.
    { by apply app_nil in Hb as [_ ?]. }
    exists e0, rest. split; [done|]. by apply Hget.
  - intros Hne. destruct (buf c) as [|e0 rest] eqn:Hb; [done|].
    rewrite (Hget e0 (rest ++ [mkEntry h x])) by done.
    unfold shard_get at 1 2. rewrite Hc. unfold chan_recv. rewrite Hb.
    cbn [fst snd]. f_equal.
    unfold shard_enqueue. cbv zeta. cbn [chans set_chans set_metrics].
    rewrite list_lookup_insert_eq by done. unfold chan_offer. cbn [buf cap].
    destruct (Nat.ltb_spec (length rest) (cap c)) as [|Hge]; [|simpl in Hlt; lia].
    unfold set_chans, set_metrics. cbn. by rewrite list_insert_insert_eq.
Qed.

(** ** [Export] *)

Lemma reachable_run o t0 evs st st' :
  reachable o t0 st → run evs st = Some st' → reachable o t0 st'.
Proof.
  intros [evs0 H0] Hrun. exists (evs0 ++ evs). by rewrite (run_app _ _ _ _ H0).
Qed.

Lemma run_enqueues o (es : list queueEntry) st st' :
  Inv o st → run (enqueueEvents es) st = Some st' →
  samplesExported (metrics st') =
    (samplesExported (metrics st) + N.of_nat (length es))%N ∧
  nextc st' = nextc st ∧ taken st' = taken st ∧ backend st' = backend st.
Proof.
  revert st. induction es as [|e es IH]; intros st HI Hrun.
  { inversion Hrun; subst. split_and!; try done. simpl. lia. }
  unfold enqueueEvents in Hrun. rewrite fmap_cons in Hrun.
  cbn [run step] in Hrun.
  destruct (IH (Exporter_enqueue (hash e) (sample e) st)) as (H1&H2&H3&H4).
  { by apply Inv_enqueue. } { exact Hrun. }
  destruct HI as (He&_).
  rewrite (Exporter_enqueue_shard o) in H1, H2, H3, H4 by done.
  rewrite taken_shard_enqueue in H3.
  assert (samplesExported (metrics (shard_enqueue (mkShard (shardOf (hash e)) false)
            (hash e) (sample e) st)) = (samplesExported (metrics st) + 1)%N ∧
          nextc (shard_enqueue (mkShard (shardOf (hash e)) false)
            (hash e) (sample e) st) = nextc st ∧
          backend (shard_enqueue (mkShard (shardOf (hash e)) false)
            (hash e) (sample e) st) = backend st) as (E1&E2&E3).
  { unfold shard_enqueue. cbv zeta. cbn [chans set_metrics queue].
    by destruct (chans st !! _) as [c|]; [destruct (chan_offer _ c)|]. }
  rewrite E1 in H1. rewrite E2 in H2. rewrite E3 in H4.
  split_and!; try done. rewrite H1. simpl length. lia.
Qed.

(** ** The walk over the shards *)






(** ** Shard mapping *)

(** A run of calls of [Exporter.enqueue] appends to every queue the
    points of its shard, in order, as long as the queue has room. *)
Lemma queued_enqueues o (es : list queueEntry) st st' j :
  Inv o st → run (enqueueEvents es) st = Some st' →
  queued j st' =
    queued j st ++ take (shardBufferSize - length (queued j st)) (ofShard j es).
Proof.
  revert st. induction es as [|e es IH]; intros st HI Hrun.
  { inversion Hrun; subst. unfold ofShard. by rewrite filter_nil, take_nil, app_nil_r. }
  unfold enqueueEvents in Hrun. rewrite fmap_cons in Hrun. cbn [run step] in Hrun.
  rewrite (IH (Exporter_enqueue (hash e) (sample e) st)); [|by apply Inv_enqueue|exact Hrun].
  rewrite (queued_Exporter_enqueue o) by done.
  assert (mkEntry (hash e) (sample e) = e) as -> by by destruct e.
  unfold ofShard. rewrite filter_cons.
  destruct (decide (shardOf (hash e) = j)) as [Hj|Hj].
  - rewrite bool_decide_eq_true_2 by done. cbn [andb].
    destruct (Nat.ltb_spec (length (queued j st)) shardBufferSize) as [Hlt|Hge].
    + rewrite length_app. cbn [length]. rewrite <- app_assoc. f_equal.
      destruct (shardBufferSize - length (queued j st)) as [|n] eqn:Hn; [lia|].
      cbn [take app]. do 2 f_equal. lia.
    + rewrite app_nil_r.
      by replace (shardBufferSize - length (queued j st)) with 0 by lia.
  - rewrite bool_decide_eq_false_2 by done. cbn [andb]. by rewrite app_nil_r.
Qed.

(** C5 — shard mapping.  With 512 shards the shard of hash [h] is
    [h mod 512].  A call of [Exporter.enqueue] is [shard.enqueue] on that
    shard, which owns the queue of the same index: the point is appended
    to queue [h mod 512] if that queue holds fewer than 2048 entries (else
    it is dropped), and no other queue is touched.  [Export] hands the points
    the builder emits to [Exporter.enqueue], one call per point and in
    order, and then signals: it is that run of events.  So when it
    returns, and no drain pass has run meanwhile, every queue has gained
    exactly the emitted points of its own shard, in order, up to its
    capacity.  Every point found in a queue of a reachable exporter sits
    in the queue of its hash: points that share a hash share a shard. *)
Theorem C5_shard_mapping o t0 st h x :
  reachable o t0 st →
  shardCount = 512 ∧
  shardOf h = N.to_nat (h mod 512) ∧
  (∃ s, shards (exp st) !! shardOf h = Some s ∧ queue s = shardOf h ∧
     Exporter_enqueue h x st = shard_enqueue s h x st) ∧
  (∀ j, queued j (Exporter_enqueue h x st) =
     queued j st ++
     if bool_decide (j = shardOf h) && (length (queued j st) <? shardBufferSize)
     then [mkEntry h x] else []) ∧
  (∀ j, j ≠ shardOf h → chans (Exporter_enqueue h x st) !! j = chans st !! j) ∧
  (∀ (Target RefSample : Type)
     (next : Target → list RefSample →
             option Sample * N * list RefSample * option string)
     fuel target samples st',
     Export next fuel target samples st = Some (Returns st') →
     run (enqueueEvents (emitted next fuel target samples) ++ [EvTrigger]) st
       = Some st' ∧
     ∀ j, queued j st' =
       queued j st ++
       take (shardBufferSize - length (queued j st))
            (ofShard j (emitted next fuel target samples))) ∧
  (∀ j c e, chans st !! j = Some c → e ∈ buf c → j = shardOf (hash e)).
Proof.
  intros Hre. pose proof (Inv_reachable o t0 st Hre) as HI.
  pose proof HI as (He&Hc&Hq&_). split_and!; [done|done| | | | |].
  - exists (mkShard (shardOf h) false). split_and!; [|done|].
    + rewrite He. cbn [shards]. apply lookup_newShards, shardOf_lt.
    + by apply (Exporter_enqueue_shard o).
  - intros j. by apply (queued_Exporter_enqueue o).
  - intros j Hj. rewrite (Exporter_enqueue_shard o) by done.
    unfold shard_enqueue. cbv zeta. cbn [queue chans set_metrics].
    destruct (chans st !! shardOf h) as [c|]; [|done].
    destruct (chan_offer _ c); [|done]. simpl.
    by rewrite list_lookup_insert_ne.
  - intros Target RefSample next fuel target samples st' Hx.
    split; [by apply Export_run|].
    unfold Export in Hx.
    destruct (exportLoop next fuel target samples st) as [[st1|msg]|] eqn:Hl;
      [|done|done].
    inversion Hx; subst st'. apply exportLoop_run in Hl. intros j.
    rewrite <- (queued_enqueues o _ st st1 j HI Hl).
    unfold queued, triggerNext. by destruct (nextc st1).
  - intros j c e Hj He'. symmetry. by apply (Hq j c e).
Qed.

Section ExportMore.

Context {Target RefSample : Type}.
Variable next :
  Target → list RefSample → option Sample * N * list RefSample * option string.

(** X9 — what [Export] does.  When [Export] returns from a reachable
    state, the state is reachable again, the wake channel holds a signal,
    [samplesExported] has grown by the number of points the builder
    emitted, and nothing was handed to the drain loop's batch, to a
    goroutine or to the backend. *)
Theorem X9_Export_counts_and_signals o t0 fuel target samples st st' :
  reachable o t0 st →
  Export next fuel target samples st = Some (Returns st') →
  reachable o t0 st' ∧ nextc st' = true ∧
  samplesExported (metrics st') =
    (samplesExported (metrics st)
     + N.of_nat (length (emitted next fuel target samples)))%N ∧
  taken st' = taken st ∧ backend st' = backend st.
Proof.
  intros Hre Hx.
  pose proof (Export_run next _ _ _ _ _ Hx) as Hrun.
  split; [by eapply reachable_run|].
  unfold Export in Hx.
  destruct (exportLoop next fuel target samples st) as [[st1|msg]|] eqn:Hl; [|done|done].
  inversion Hx; subst st'.
  apply exportLoop_run in Hl.
  destruct (run_enqueues o _ _ _ (Inv_reachable o t0 st Hre) Hl) as (H1&H2&H3&H4).
  unfold triggerNext. destruct (nextc st1) eqn:Hn; by split_and!.
Qed.

(** X10 — [Export] comes to an end.  If every call of the builder on a
    non-empty slice returns a shorter one, the loop of [Export] needs no
    more rounds than there are samples: it returns or panics. *)
Theorem X10_Export_terminates target samples st :
  (∀ t l, l ≠ [] → length (next t l).1.2 < length l) →
  ∃ r, Export next (length samples) target samples st = Some r.
Proof.
  intros Hnext. unfold Export.
  pose proof (exportLoop_total next (length samples) target samples st Hnext
                (Nat.le_refl _)) as Hne.
  destruct (exportLoop next (length samples) target samples st) as [[st1|msg]|];
    [by eexists|by eexists|done].
Qed.

End ExportMore.

(** ** After [Run] has returned *)

(** X12 — after cancellation.  Once [Run] has returned, whatever happens
    next, the batch stays as it is, no goroutine is started, and every
    further request comes from a goroutine that was already started: the
    points in the batch and in the queues are never sent. *)
Theorem X12_nothing_sent_after_return (evs : list event) st st' :
  returned st = true → run evs st = Some st' →
  returned st' = true ∧ batch st' = batch st ∧
  inflight st' `sublist_of` inflight st ∧
  length (backend st') + length (inflight st') =
    length (backend st) + length (inflight st).
Proof.
  revert st. induction evs as [|ev evs IH]; intros st Hret Hrun.
  { by inversion Hrun; subst. }
  cbn [run] in Hrun. destruct (step ev st) as [st1|] eqn:Hstep; [|done].
  assert (returned st1 = true ∧ batch st1 = batch st ∧
          inflight st1 `sublist_of` inflight st ∧
          length (backend st1) + length (inflight st1) =
            length (backend st) + length (inflight st)) as (R1&B1&I1&L1).
  { destruct ev as [h x| | | | |dt|k err]; simpl in Hstep.
    - inversion Hstep; subst. unfold Exporter_enqueue.
      destruct (shards (exp st) !! _) as [s|]; [|done].
      unfold shard_enqueue. cbv zeta. cbn [chans set_metrics].
      by destruct (chans st !! _) as [c|]; [destruct (chan_offer _ c)|].
    - inversion Hstep; subst. unfold triggerNext. by destruct (nextc st).
    - by rewrite Hret in Hstep.
    - by rewrite Hret in Hstep.
    - by rewrite Hret in Hstep.
    - case_bool_decide; [|done]. by inversion Hstep; subst.
    - destruct (inflight st !! k) as [t|] eqn:Hk; [|done].
      inversion Hstep; subst. destruct t as [b cs].
      assert (∀ st1 : State, returned st1 = returned st → batch st1 = batch st →
        inflight st1 = delete k (inflight st) →
        length (backend st1) = S (length (backend st)) →
        returned st1 = true ∧ batch st1 = batch st ∧
        inflight st1 `sublist_of` inflight st ∧
        length (backend st1) + length (inflight st1) =
          length (backend st) + length (inflight st)) as Hgen.
      { intros st1 E1 E2 E3 E4. rewrite E1, E2, E3, E4.
        split_and!; [done|done|apply sublist_delete|].
        rewrite length_delete by by eexists.
        apply lookup_lt_Some in Hk. lia. }
      unfold sendTask. destruct err; apply Hgen; try done;
        simpl; rewrite length_app; simpl; lia. }
  destruct (IH st1 R1 Hrun) as (R2&B2&I2&L2).
  split_and!; [done|congruence|by etrans|lia].
Qed.

End MoreProperties.

(** ** The exporter that [New] builds, and the global one *)

Section NewProperties.

Context {Sample : Type}.

(** X13 — the exporter [New] builds.  With a project ID and a registry
    that holds none of the counters, [New] returns no error and an
    exporter with the options given and 512 shards, none pending; each
    shard has a queue of its own, empty and of capacity 2048. *)
Theorem X13_New_builds_separate_queues (reg : Registry) (o : ExporterOpts) :
  ProjectID o ≠ "" → (∀ n, n ∈ exporterCounters → n ∉ reg) →
  ∃ e cs,
    New (Sample:=Sample) (Some reg) o =
      Returns (mkNewResult (Some (reg ++ exporterCounters)) (Some (e, cs)) None) ∧
    opts e = o ∧ length (shards e) = 512 ∧ length cs = 512 ∧
    ∀ i s, shards e !! i = Some s →
      pending s = false ∧ cs !! queue s = Some (mkChan [] 2048) ∧
      ∀ j s', shards e !! j = Some s' → j ≠ i → queue s' ≠ queue s.
Proof.
  intros Hp Hfresh. exists (mkExporter o newShards), newChans.
  split; [by apply New_ok|]. split; [done|].
  split; [apply length_newShards|]. split; [apply length_replicate|].
  intros i s [-> Hi]%lookup_newShards_Some. split; [done|]. split.
  - cbn [queue]. unfold newChans. by rewrite lookup_replicate_2.
  - intros j s' [-> Hj]%lookup_newShards_Some Hne. by cbn [queue].
Qed.

(** X11 — the global exporter.  [InitGlobal] assigns the global variable
    only if [New] returns.  Called with no registry, or with one that
    holds none of the six counters: with an empty project ID the error
    comes back and the variable is nil whatever it held before, so
    [Global] panics; with a project ID [Global] returns the new exporter.
    Called with a registry that holds one of the counters already, it
    panics and the variable keeps its value; that is what a second call
    with the registry of a first one does, whatever the options. *)
Theorem X11_InitGlobal_then_Global (reg : option Registry) (o : ExporterOpts)
    (g : GlobalVar Sample) :
  ((∀ r, reg = Some r → ∀ n, n ∈ exporterCounters → n ∉ r) →
     ∃ res, InitGlobal reg o g = (Returns res, exporter res) ∧
       registerer res = (λ r, r ++ exporterCounters) <$> reg ∧
       (ProjectID o = "" →
          error res = Some "GCP project ID missing" ∧ exporter res = None ∧
          Global (InitGlobal reg o g).2
            = Panics "Global GCM exporter used before initialization.") ∧
       (ProjectID o ≠ "" →
          error res = None ∧
          Global (InitGlobal reg o g).2 = Returns (mkExporter o newShards, newChans)) ∧
       (∀ o2 (g2 : GlobalVar Sample), reg ≠ None →
          InitGlobal (registerer res) o2 g2 =
            (Panics "duplicate metrics collector registration attempted", g2))) ∧
  ((∃ r n, reg = Some r ∧ n ∈ exporterCounters ∧ n ∈ r) →
     InitGlobal reg o g =
       (Panics "duplicate metrics collector registration attempted", g)).
Proof.
  assert (∀ (r : Registry) o2 (g2 : GlobalVar Sample),
            (∃ n, n ∈ exporterCounters ∧ n ∈ r) →
            InitGlobal (Some r) o2 g2 =
              (Panics "duplicate metrics collector registration attempted", g2))
    as Hused.
  { intros r o2 g2 Hu. unfold InitGlobal, New, MustRegister, Registry_Registerer.
    by rewrite registerAll_used. }
  split.
  - intros Hfresh. unfold InitGlobal, New.
    assert (match reg with
            | Some r =>
                match MustRegister exporterCounters r with
                | Returns r' => Returns (Some r')
                | Panics msg => Panics msg
                end
            | None => Returns None
            end = Returns ((λ r, r ++ exporterCounters) <$> reg)) as ->.
    { destruct reg as [r|]; [|done].
      unfold MustRegister, Registry_Registerer.
      by rewrite registerAll_fresh; [|apply exporterCounters_NoDup|apply Hfresh]. }
    assert (∀ o2 (g2 : GlobalVar Sample), reg ≠ None →
              InitGlobal ((λ r, r ++ exporterCounters) <$> reg) o2 g2 =
                (Panics "duplicate metrics collector registration attempted", g2))
      as Hagain.
    { intros o2 g2 Hreg. destruct reg as [r|]; [|done]. apply Hused.
      exists "gcm_collector_samples_exported_total".
      split; [by left|]. apply elem_of_app. right. by left. }
    destruct (decide (ProjectID o = "")) as [Hp|Hp].
    + rewrite bool_decide_eq_true_2 by done. eexists. split; [done|].
      cbn [registerer error exporter snd]. split_and!; [done|done|done|exact Hagain].
    + rewrite bool_decide_eq_false_2 by done. eexists. split; [done|].
      cbn [registerer error exporter snd]. split_and!; [done|done|done|exact Hagain].
  - intros (r&n&->&Hn&Hr). apply Hused. by exists n.
Qed.

End NewProperties.

(** * The code on concrete runs *)

(** C1 — pending discipline.  What the code does on [twoScrapes]: two
    goroutines are in flight at once, each with a point drawn from shard
    0, while [pending] of shard 0 is false and no visit was ever skipped;
    the flag was set on two captured copies.  On [dupAfterOther] the pass
    draws two points from shard 1 and neither sets a flag for it nor
    records a closer for it. *)
Theorem C1_pending_set_on_a_copy :
  (run twoScrapes start = Some (after twoScrapes start) ∧
   inflight (after twoScrapes start)
     = [ ([mkEntry 0 "a"], [Release 0]); ([mkEntry 0 "b"], [Release 1]) ] ∧
   shardOf 0 = 0 ∧
   shards (exp (after twoScrapes start)) !! 0 = Some (mkShard 0 false) ∧
   locals (after twoScrapes start) = [mkShard 0 true; mkShard 0 true] ∧
   shardProcessPending (metrics (after twoScrapes start)) = 0%N) ∧
  (run dupAfterOther start = Some (after dupAfterOther start) ∧
   inflight (after dupAfterOther start)
     = [ ([mkEntry 0 "a"; mkEntry 1 "b"], [Release 0]) ] ∧
   batch (after dupAfterOther start) = [mkEntry 1 "c"] ∧
   closers (after dupAfterOther start) = [] ∧
   shardOf 1 = 1 ∧
   shards (exp (after dupAfterOther start)) !! 1 = Some (mkShard 1 false) ∧
   locals (after dupAfterOther start) = [mkShard 0 true]).
Proof.
  split; (split; [apply run_after; vm_compute; reflexivity|]);
    split_and!; vm_compute; reflexivity.
Qed.

(** C2 — per-series order.  What the code does on [secondFirst]: the
    request stream has point b of series 0 before point a, though a was
    enqueued first. *)
Theorem C2_same_series_out_of_order :
  run secondFirst start = Some (after secondFirst start) ∧
  TimeSeries <$> backend (after secondFirst start)
    = [ [mkEntry 0 "b"]; [mkEntry 0 "a"] ].
Proof.
  split; [apply run_after; vm_compute; reflexivity|]. vm_compute. reflexivity.
Qed.

(** On [fillFive] the batch fills up at shard 4 and is sent; the pass
    goes on to shard 511, and the next pass starts at shard 0 again. *)
Lemma fiveShards_pass :
  run (fillFive ++ [EvWake]) startN = Some (after (fillFive ++ [EvWake]) startN) ∧
  (length ∘ fst) <$> inflight (after (fillFive ++ [EvWake]) startN) = [200] ∧
  batch (after (fillFive ++ [EvWake]) startN) = [] ∧
  shardProcess (metrics (after (fillFive ++ [EvWake]) startN)) = 512%N ∧
  shardOffset (after (fillFive ++ [EvWake]) startN) = 0 ∧
  nextc (after (fillFive ++ [EvWake]) startN) = false.
Proof.
  split; [apply run_after; vm_compute; reflexivity|].
  split_and!; vm_compute; reflexivity.
Qed.

(** ** Witnesses *)

(** One point in the batch: a second point of the same series starts a
    new batch. *)
Lemma C3_batch_uniqueness_witness :
  occurs demoOpts 0 (after untilTimerDue start) ∧
  batch (after untilTimerDue start) = [mkEntry 0 "a"] ∧
  seen (after untilTimerDue start) = list_to_set (hashes (batch (after untilTimerDue start))) ∧
  batch (appendEntry (mkEntry 0 "b") (after untilTimerDue start)) = [mkEntry 0 "b"].
Proof.
  assert (occurs demoOpts 0 (after untilTimerDue start)) as H.
  { apply occurs_rest, reachable_after. vm_compute. reflexivity. }
  destruct (C3_batch_uniqueness demoOpts 0 _ H) as (_&Hseen&_&_&Hdup).
  assert (hash (mkEntry 0 "b") ∈ seen (after untilTimerDue start)) as Hin.
  { apply (bool_decide_unpack _). vm_compute. exact I. }
  destruct (Hdup _ Hin) as (_&Hb&_).
  split; [exact H|]. split; [vm_compute; reflexivity|].
  split; [exact Hseen|exact Hb].
Defined.

(** The 200th point has just been appended in round 199 of the pass. *)
Lemma C4_batch_cap_witness :
  occurs demoOpts 0 (inVisit 199 1 (after fillOnce startN)) ∧
  length (batch (inVisit 199 1 (after fillOnce startN))) = batchSizeMax ∧
  flushIfFull (inVisit 199 1 (after fillOnce startN))
    = send (inVisit 199 1 (after fillOnce startN)) ∧
  batch (flushIfFull (inVisit 199 1 (after fillOnce startN))) = [].
Proof.
  assert (occurs demoOpts 0 (inVisit 199 1 (after fillOnce startN))) as H.
  { apply occurs_filling, reachable_after. vm_compute. reflexivity. }
  assert (length (batch (inVisit 199 1 (after fillOnce startN))) = batchSizeMax) as Hfull.
  { vm_compute. reflexivity. }
  destruct (C4_batch_cap demoOpts 0 _ H) as (_&_&_&_&_&_&Hsend).
  destruct (Hsend Hfull) as (_&Hflush&_&_&Hempty).
  split; [exact H|]. split; [exact Hfull|]. split; [exact Hflush|exact Hempty].
Defined.

(** Hash 1031 belongs to shard 7, and on a fresh exporter the point
    lands in queue 7.  [Export] of [mixedSamples] puts the points of series
    515 and 3 in queue 3, those of series 4 and 1028 in queue 4, and
    nothing in queue 5. *)
Lemma C5_shard_mapping_witness :
  reachable demoOpts 0 startN ∧
  shardOf 1031 = 7 ∧
  queued 7 (Exporter_enqueue 1031 1 startN) = [mkEntry 1031 1] ∧
  queued 8 (Exporter_enqueue 1031 1 startN) = [] ∧
  ∃ st', Export demoNext 5 tt mixedSamples startN = Some (Returns st') ∧
    queued 3 st' = [mkEntry 515 7; mkEntry 3 9] ∧
    queued 4 st' = [mkEntry 4 8; mkEntry 1028 5] ∧
    queued 5 st' = [].
Proof.
  assert (reachable demoOpts 0 startN) as H by (exists []; reflexivity).
  destruct (C5_shard_mapping demoOpts 0 startN 1031 1 H) as (_&_&_&Hone&_&Hexp&_).
  split; [exact H|]. split; [vm_compute; reflexivity|].
  split; [rewrite Hone; vm_compute; reflexivity|].
  split; [rewrite Hone; vm_compute; reflexivity|].
  assert ((if Export demoNext 5 tt mixedSamples startN is Some (Returns _)
           then true else false) = true) as Hb by (vm_compute; reflexivity).
  destruct (Export demoNext 5 tt mixedSamples startN) as [[st'|msg]|] eqn:HE;
    [|discriminate Hb|discriminate Hb].
  destruct (Hexp unit (N * nat)%type demoNext 5 tt mixedSamples st' HE) as [_ Hq].
  exists st'. split; [reflexivity|].
  split_and!; rewrite Hq; vm_compute; reflexivity.
Defined.

(** Shard 7 is full: the next point for it is counted and dropped. *)
Lemma C6_enqueue_or_drop_witness :
  reachable demoOpts 0 (after fillShard7 startN) ∧
  shards (exp (after fillShard7 startN)) !! 7 = Some (mkShard 7 false) ∧
  samplesExported (metrics (shard_enqueue (mkShard 7 false) 7 0 (after fillShard7 startN)))
    = 2049%N ∧
  samplesDropped (metrics (shard_enqueue (mkShard 7 false) 7 0 (after fillShard7 startN)))
    = 1%N ∧
  chans (shard_enqueue (mkShard 7 false) 7 0 (after fillShard7 startN))
    = chans (after fillShard7 startN).
Proof.
  assert (reachable demoOpts 0 (after fillShard7 startN)) as H.
  { apply reachable_after. vm_compute. reflexivity. }
  assert (shards (exp (after fillShard7 startN)) !! 7 = Some (mkShard 7 false)) as Hs.
  { vm_compute. reflexivity. }
  destruct (C6_enqueue_or_drop demoOpts 0 _ 7 (mkShard 7 false) 7 0 H Hs)
    as (_&c&Hc&_&_&Hexp&Hdrop&Hsame&_).
  assert (length (buf c) = shardBufferSize) as Hfull.
  { assert ((length ∘ buf) <$> chans (after fillShard7 startN) !! 7
            = Some shardBufferSize) as Hl by (vm_compute; reflexivity).
    cbn [queue] in Hc. rewrite Hc in Hl. injection Hl as Hl. exact Hl. }
  split; [exact H|]. split; [exact Hs|]. split; [|split].
  - rewrite Hexp. vm_compute. reflexivity.
  - apply Hdrop in Hfull. rewrite Hfull. vm_compute. reflexivity.
  - apply Hsame. exact Hfull.
Defined.

(** The goroutine started after the first scrape fails at the backend. *)
Lemma C7_send_accounting_witness :
  inflight (after firstScrape start) !! 0 = Some ([mkEntry 0 "a"], [Release 0]) ∧
  ∃ st', step (EvSend 0 (Some "unavailable")) (after firstScrape start) = Some st' ∧
    samplesSent (metrics st') = 1%N ∧
    TimeSeries <$> backend st' = [[mkEntry 0 "a"]] ∧
    locals st' = [mkShard 0 false] ∧
    logs st' = ["send batch: unavailable"] ∧
    inflight st' = [].
Proof.
  assert (inflight (after firstScrape start) !! 0
          = Some (([mkEntry 0 "a"], [Release 0]) : task)) as H.
  { vm_compute. reflexivity. }
  split; [exact H|].
  destruct (C7_send_accounting _ 0 _ (Some "unavailable") H)
    as (st'&Hstep&Hsent&Hback&Hloc&_&Hlog&Hin&_).
  exists st'. split; [exact Hstep|].
  rewrite Hsent, Hback, Hloc, Hlog, Hin.
  split_and!; vm_compute; reflexivity.
Defined.

(** The timer fires on a batch of one point: it is sent and the timer is
    due at 10 s. *)
Lemma C8_timer_discipline_witness :
  occurs demoOpts 0 (after untilTimerDue start) ∧
  step EvTimer (after untilTimerDue start)
    = Some (after (untilTimerDue ++ [EvTimer]) start) ∧
  timer (after (untilTimerDue ++ [EvTimer]) start) = mkTimer true 10000000000 false ∧
  inflight (after (untilTimerDue ++ [EvTimer]) start)
    = [([mkEntry 0 "a"], [Release 0])].
Proof.
  assert (occurs demoOpts 0 (after untilTimerDue start)) as H.
  { apply occurs_rest, reachable_after. vm_compute. reflexivity. }
  assert (step EvTimer (after untilTimerDue start)
          = Some (after (untilTimerDue ++ [EvTimer]) start)) as Hstep.
  { apply step_after. vm_compute. reflexivity. }
  destruct (C8_timer_discipline demoOpts 0 _ H) as (_&_&_&_&_&Htimer).
  destruct (Htimer _ Hstep) as (Ht&_&Hi).
  split; [exact H|]. split; [exact Hstep|]. split.
  - rewrite Ht. vm_compute. reflexivity.
  - rewrite Hi. vm_compute. reflexivity.
Defined.


(** A registry that holds another collector, and an empty project ID: the
    six counters are added behind it.  A registry that holds one of the
    counters: [New] panics. *)
Lemma C10_New_registers_before_failing_witness :
  ProjectID (mkOpts "" "" "") = "" ∧
  (∀ n, n ∈ exporterCounters → n ∉ (["go_goroutines"] : Registry)) ∧
  New (Sample:=nat) (Some (["go_goroutines"] : Registry)) (mkOpts "" "" "")
    = Returns (mkNewResult (Some ("go_goroutines" :: exporterCounters)) None
                           (Some "GCP project ID missing")) ∧
  New (Sample:=nat) (Some (["gcm_collector_samples_sent_total"] : Registry))
      (mkOpts "" "" "")
    = Panics "duplicate metrics collector registration attempted".
Proof.
  assert (∀ n, n ∈ exporterCounters → n ∉ (["go_goroutines"] : Registry)) as Hfresh.
  { intros n Hn Hr. apply list_elem_of_singleton in Hr. subst n.
    revert Hn. apply (bool_decide_unpack _). vm_compute. exact I. }
  destruct (C10_New_registers_before_failing (Sample:=nat) ["go_goroutines"]
              (mkOpts "" "" "") eq_refl) as ([Hnew _]&_&_); [exact Hfresh|].
  destruct (C10_New_registers_before_failing (Sample:=nat)
              ["gcm_collector_samples_sent_total"] (mkOpts "" "" "") eq_refl)
    as (_&Hpanic&_).
  split; [reflexivity|]. split; [exact Hfresh|]. split; [exact Hnew|].
  apply Hpanic. exists "gcm_collector_samples_sent_total".
  split; [|by apply list_elem_of_singleton].
  apply (bool_decide_unpack _). vm_compute. exact I.
Defined.

(** C10 as worded, for any registry that is not nil, fails: this registry
    holds one of the six counters, the project ID is empty, and [New]
    returns neither an exporter nor an error, it panics. *)
Lemma C10_used_registry_counterexample :
  ProjectID (mkOpts "" "" "") = "" ∧
  New (Sample:=nat) (Some (["gcm_collector_samples_sent_total"] : Registry))
      (mkOpts "" "" "")
    = Panics "duplicate metrics collector registration attempted" ∧
  (∀ r, New (Sample:=nat) (Some (["gcm_collector_samples_sent_total"] : Registry))
          (mkOpts "" "" "") ≠ Returns r).
Proof. split; [reflexivity|]. split; [reflexivity|]. intros r. discriminate. Qed.

(** The points of shard 0 keep their place through a pass that sends. *)
Lemma X1_shard_order_kept_witness :
  reachable demoOpts 0 (after fillFive startN) ∧
  step EvWake (after fillFive startN) = Some (after (fillFive ++ [EvWake]) startN) ∧
  (∀ k err, @EvWake nat ≠ EvSend k err) ∧
  ∀ j, pipeline j (after (fillFive ++ [EvWake]) startN)
       = pipeline j (after fillFive startN) ++ [].
Proof.
  assert (reachable demoOpts 0 (after fillFive startN)) as H.
  { apply reachable_after. vm_compute. reflexivity. }
  assert (step EvWake (after fillFive startN)
          = Some (after (fillFive ++ [EvWake]) startN)) as Hstep.
  { apply step_after. vm_compute. reflexivity. }
  assert (∀ k err, @EvWake nat ≠ EvSend k err) as Hns by (intros k err; discriminate).
  destruct (X1_shard_order_kept demoOpts 0 _ _ _ H Hstep Hns) as [Hp _].
  split; [exact H|]. split; [exact Hstep|]. split; [exact Hns|exact Hp].
Defined.

(** Two points exported and both requests open: nothing is counted as
    sent.  When the second request returns, with an error, its point is. *)
Lemma X2_points_accounted_witness :
  freachable demoOpts 0 (fafter twoOpen (mkFine start [])) ∧
  samplesExported (metrics (base (fafter twoOpen (mkFine start [])))) = 2%N ∧
  requested (base (fafter twoOpen (mkFine start []))) = 2 ∧
  openPoints (fafter twoOpen (mkFine start [])) = 2 ∧
  samplesSent (metrics (base (fafter twoOpen (mkFine start [])))) = 0%N ∧
  freachable demoOpts 0
    (fafter (twoOpen ++ [FReturn 1 (Some "deadline exceeded")]) (mkFine start [])) ∧
  samplesSent (metrics (base
    (fafter (twoOpen ++ [FReturn 1 (Some "deadline exceeded")]) (mkFine start []))))
    = 1%N.
Proof.
  assert (freachable demoOpts 0 (fafter twoOpen (mkFine start []))) as H.
  { apply (freachable_fafter demoOpts 0 twoOpen). vm_compute. reflexivity. }
  assert (freachable demoOpts 0
            (fafter (twoOpen ++ [FReturn 1 (Some "deadline exceeded")])
                    (mkFine start []))) as H'.
  { apply (freachable_fafter demoOpts 0
             (twoOpen ++ [FReturn 1 (Some "deadline exceeded")])).
    vm_compute. reflexivity. }
  destruct (X2_points_accounted demoOpts 0 _ H) as (_&Hsent&_).
  destruct (X2_points_accounted demoOpts 0 _ H') as (_&Hsent'&_).
  assert (requested (base (fafter twoOpen (mkFine start []))) = 2) as Hreq.
  { vm_compute. reflexivity. }
  assert (openPoints (fafter twoOpen (mkFine start [])) = 2) as Hopen.
  { vm_compute. reflexivity. }
  assert (requested (base (fafter (twoOpen ++ [FReturn 1 (Some "deadline exceeded")])
                                  (mkFine start []))) = 2) as Hreq'.
  { vm_compute. reflexivity. }
  assert (openPoints (fafter (twoOpen ++ [FReturn 1 (Some "deadline exceeded")])
                             (mkFine start [])) = 1) as Hopen'.
  { vm_compute. reflexivity. }
  rewrite Hreq, Hopen in Hsent. rewrite Hreq', Hopen' in Hsent'.
  split; [exact H|]. split; [vm_compute; reflexivity|].
  split; [exact Hreq|]. split; [exact Hopen|].
  split; [lia|]. split; [exact H'|lia].
Defined.

(** Both requests of [secondFirst] are addressed to the demo project. *)
Lemma X3_requests_nonempty_and_named_witness :
  reachable demoOpts 0 (after secondFirst start) ∧
  length (backend (after secondFirst start)) = 2 ∧
  ∀ r, r ∈ backend (after secondFirst start) →
    TimeSeries r ≠ [] ∧ Name r = "projects/demo-project".
Proof.
  assert (reachable demoOpts 0 (after secondFirst start)) as H.
  { apply reachable_after. vm_compute. reflexivity. }
  destruct (X3_requests_nonempty_and_named demoOpts 0 _ H) as [_ Hr].
  split; [exact H|]. split; [vm_compute; reflexivity|exact Hr].
Defined.

(** With one point in the batch, 5 s later the timer case is ready; after
    [Run] has returned the timer is stopped and 5 s more change nothing. *)
Lemma X4_timer_never_lost_witness :
  (reachable demoOpts 0 (after (take 3 untilTimerDue) start) ∧
   (batchDelayMax ≤ batchDelayMax)%Z ∧
   returned (after (take 3 untilTimerDue) start) = false ∧
   batch (after (take 3 untilTimerDue) start) = [mkEntry 0 "a"] ∧
   ∃ st1, step (EvTick batchDelayMax) (after (take 3 untilTimerDue) start) = Some st1 ∧
     C (timer st1) = true ∧
     ∃ st2, step EvTimer st1 = Some st2 ∧ batch st2 = []) ∧
  (reachable demoOpts 0 (after cancelled start) ∧
   returned (after cancelled start) = true ∧
   active (timer (after cancelled start)) = false ∧
   C (timer (after cancelled start)) = false ∧
   step EvTimer (after cancelled start) = None).
Proof.
  assert (reachable demoOpts 0 (after (take 3 untilTimerDue) start)) as H.
  { apply reachable_after. vm_compute. reflexivity. }
  assert (reachable demoOpts 0 (after cancelled start)) as H'.
  { apply reachable_after. vm_compute. reflexivity. }
  assert (batchDelayMax ≤ batchDelayMax)%Z as Hle by reflexivity.
  assert (returned (after (take 3 untilTimerDue) start) = false) as Hr.
  { vm_compute. reflexivity. }
  assert (returned (after cancelled start) = true) as Hr'.
  { vm_compute. reflexivity. }
  destruct (X4_timer_never_lost demoOpts 0 _ batchDelayMax H Hle) as [Hrun _].
  destruct (Hrun Hr) as (_&_&(st1&Htick&HC&_&st2&Hstep&Hb)&_).
  destruct (X4_timer_never_lost demoOpts 0 _ batchDelayMax H' Hle) as [_ Hdone].
  destruct (Hdone Hr') as (Ha&HC'&Hno&_).
  split.
  - split; [exact H|]. split; [exact Hle|]. split; [exact Hr|].
    split; [vm_compute; reflexivity|].
    exists st1. split; [exact Htick|]. split; [exact HC|].
    exists st2. split; [exact Hstep|exact Hb].
  - split; [exact H'|]. split; [exact Hr'|]. split; [exact Ha|].
    split; [exact HC'|exact Hno].
Defined.

(** One pass over five loaded shards: 512 visits, none pending. *)
Lemma X5_drain_counters_witness :
  reachable demoOpts 0 (after (fillFive ++ [EvWake]) startN) ∧
  sendIterations (metrics (after (fillFive ++ [EvWake]) startN)) = 1%N ∧
  shardProcess (metrics (after (fillFive ++ [EvWake]) startN)) = 512%N ∧
  shardProcessPending (metrics (after (fillFive ++ [EvWake]) startN)) = 0%N.
Proof.
  assert (reachable demoOpts 0 (after (fillFive ++ [EvWake]) startN)) as H.
  { apply reachable_after. vm_compute. reflexivity. }
  destruct (X5_drain_counters demoOpts 0 _ H) as (Hproc&Hpend&_).
  assert (sendIterations (metrics (after (fillFive ++ [EvWake]) startN)) = 1%N) as Hit.
  { vm_compute. reflexivity. }
  split; [exact H|]. split; [exact Hit|]. split; [|exact Hpend].
  rewrite Hproc, Hit. reflexivity.
Defined.

(** Three triggers on a fresh exporter. *)
Lemma X6_wakeups_coalesce_witness :
  reachable demoOpts 0 start ∧ returned start = false ∧
  run (replicate 3 EvTrigger) start = Some (triggerNext start) ∧
  ∃ st2, step EvWake (triggerNext start) = Some st2 ∧
    nextc st2 = false ∧ step EvWake st2 = None.
Proof.
  assert (reachable demoOpts 0 start) as H by (exists []; reflexivity).
  assert (returned start = false) as Hr by reflexivity.
  split; [exact H|]. split; [exact Hr|].
  exact (X6_wakeups_coalesce demoOpts 0 start 2 H Hr).
Defined.

(** Two points in two shards are both drained into the batch. *)
Lemma X7_quiet_pass_empties_queues_witness :
  reachable demoOpts 0 (after twoShards start) ∧
  step EvWake (after twoShards start) = Some (after (twoShards ++ [EvWake]) start) ∧
  inflight (after (twoShards ++ [EvWake]) start) = inflight (after twoShards start) ∧
  batch (after (twoShards ++ [EvWake]) start) = [mkEntry 0 "a"; mkEntry 1 "b"] ∧
  ∀ j, queued j (after (twoShards ++ [EvWake]) start) = [].
Proof.
  assert (reachable demoOpts 0 (after twoShards start)) as H.
  { apply reachable_after. vm_compute. reflexivity. }
  assert (step EvWake (after twoShards start)
          = Some (after (twoShards ++ [EvWake]) start)) as Hstep.
  { apply step_after. vm_compute. reflexivity. }
  assert (inflight (after (twoShards ++ [EvWake]) start)
          = inflight (after twoShards start)) as Hsame.
  { vm_compute. reflexivity. }
  destruct (X7_quiet_pass_empties_queues demoOpts 0 _ _ H Hstep Hsame) as (Hq&_&_).
  split; [exact H|]. split; [exact Hstep|]. split; [exact Hsame|].
  split; [vm_compute; reflexivity|exact Hq].
Defined.

(** A queue holding one point: the next enqueue and the get commute. *)
Lemma X8_enqueue_then_get_witness :
  chans (after [EvEnqueue 0 1] startN) !! queue (mkShard 0 false)
    = Some (mkChan [mkEntry 0 1] shardBufferSize) ∧
  length (buf (mkChan [mkEntry 0 1] shardBufferSize))
    < cap (mkChan [mkEntry 0 1] shardBufferSize) ∧
  shard_get (mkShard 0 false)
      (shard_enqueue (mkShard 0 false) 512 2 (after [EvEnqueue 0 1] startN))
    = ((shard_get (mkShard 0 false) (after [EvEnqueue 0 1] startN)).1,
       shard_enqueue (mkShard 0 false) 512 2
         (shard_get (mkShard 0 false) (after [EvEnqueue 0 1] startN)).2).
Proof.
  assert (chans (after [EvEnqueue 0 1] startN) !! queue (mkShard 0 false)
          = Some (mkChan [mkEntry 0 1] shardBufferSize)) as Hc.
  { vm_compute. reflexivity. }
  assert (length (buf (mkChan [mkEntry 0 1] shardBufferSize))
          < cap (mkChan [mkEntry 0 1] shardBufferSize)) as Hlt.
  { cbn [buf cap length]. unfold shardBufferSize. lia. }
  destruct (X8_enqueue_then_get (mkShard 0 false) 512 2 _ _ Hc Hlt) as [_ Hcomm].
  split; [exact Hc|]. split; [exact Hlt|]. apply Hcomm. discriminate.
Defined.

(** Four samples, three points emitted. *)
Lemma X9_Export_counts_and_signals_witness :
  reachable demoOpts 0 startN ∧
  ∃ st', Export demoNext 4 tt demoSamples startN = Some (Returns st') ∧
    nextc st' = true ∧ samplesExported (metrics st') = 3%N.
Proof.
  assert (reachable demoOpts 0 startN) as H by (exists []; reflexivity).
  split; [exact H|].
  assert ((if Export demoNext 4 tt demoSamples startN is Some (Returns _)
           then true else false) = true) as Hb by (vm_compute; reflexivity).
  destruct (Export demoNext 4 tt demoSamples startN) as [[st'|msg]|] eqn:HE;
    [|discriminate Hb|discriminate Hb].
  destruct (X9_Export_counts_and_signals demoNext demoOpts 0 4 tt demoSamples
              startN st' H HE) as (_&Hn&Hx&_).
  exists st'. split; [reflexivity|]. split; [exact Hn|].
  rewrite Hx. vm_compute. reflexivity.
Defined.

(** The demo builder consumes one sample per call. *)
Lemma X10_Export_terminates_witness :
  (∀ (t : unit) (l : list (N * nat)), l ≠ [] → length (demoNext t l).1.2 < length l) ∧
  ∃ r, Export demoNext (length demoSamples) tt demoSamples startN = Some r.
Proof.
  assert (∀ (t : unit) (l : list (N * nat)), l ≠ [] →
            length (demoNext t l).1.2 < length l) as Hnext.
  { intros t [|[ref v] rest] Hne; [done|]. cbn. lia. }
  split; [exact Hnext|].
  exact (X10_Export_terminates demoNext tt demoSamples startN Hnext).
Defined.

(** A first [InitGlobal] on a registry with one other collector sets the
    exporter; a second one on the registry the first left behind panics,
    and [Global] still returns the first exporter.  On a fresh registry a
    call without project ID clears the exporter. *)
Lemma X11_InitGlobal_then_Global_witness :
  (∀ r : Registry, Some ["go_goroutines"] = Some r →
     ∀ n, n ∈ exporterCounters → n ∉ r) ∧
  InitGlobal (Sample:=nat) (Some (["go_goroutines"] : Registry)) demoOpts None
    = (Returns (mkNewResult (Some ("go_goroutines" :: exporterCounters))
                            (Some (mkExporter demoOpts newShards, newChans)) None),
       Some (mkExporter demoOpts newShards, newChans)) ∧
  InitGlobal (Sample:=nat) (Some ("go_goroutines" :: exporterCounters))
      (mkOpts "" "" "") (Some (mkExporter demoOpts newShards, newChans))
    = (Panics "duplicate metrics collector registration attempted",
       Some (mkExporter demoOpts newShards, newChans)) ∧
  Global (InitGlobal (Sample:=nat) (Some (["go_goroutines"] : Registry))
            (mkOpts "" "" "") (Some (mkExporter demoOpts newShards, newChans))).2
    = Panics "Global GCM exporter used before initialization.".
Proof.
  assert (∀ r : Registry, Some ["go_goroutines"] = Some r →
            ∀ n, n ∈ exporterCounters → n ∉ r) as Hf.
  { intros r [= <-] n Hn Hr. apply list_elem_of_singleton in Hr. subst n.
    revert Hn. apply (bool_decide_unpack _). vm_compute. exact I. }
  destruct (X11_InitGlobal_then_Global (Sample:=nat) (Some ["go_goroutines"])
              demoOpts None) as [Hfresh _].
  destruct (Hfresh Hf) as (res&Hinit&Hreg&_&Hok&Hagain).
  destruct (X11_InitGlobal_then_Global (Sample:=nat) (Some ["go_goroutines"])
              (mkOpts "" "" "") (Some (mkExporter demoOpts newShards, newChans)))
    as [Hfresh' _].
  destruct (Hfresh' Hf) as (res'&_&_&Hempty&_&_).
  destruct (Hempty eq_refl) as (_&_&Hpanic).
  split; [exact Hf|]. split; [reflexivity|]. split; [|exact Hpanic].
  specialize (Hagain (mkOpts "" "" "")
                (Some (mkExporter demoOpts newShards, newChans))).
  rewrite Hreg in Hagain. apply Hagain. discriminate.
Defined.

(** After [Run] has returned the point queued last is never drained. *)
Lemma X12_nothing_sent_after_return_witness :
  returned (after cancelled start) = true ∧
  run [EvTrigger; EvTick batchDelayMax; EvSend 0 None] (after cancelled start)
    = Some (after [EvTrigger; EvTick batchDelayMax; EvSend 0 None]
              (after cancelled start)) ∧
  batch (after [EvTrigger; EvTick batchDelayMax; EvSend 0 None] (after cancelled start))
    = batch (after cancelled start) ∧
  queued 0 (after [EvTrigger; EvTick batchDelayMax; EvSend 0 None] (after cancelled start))
    = [mkEntry 0 "b"].
Proof.
  assert (returned (after cancelled start) = true) as Hr by (vm_compute; reflexivity).
  assert (run [EvTrigger; EvTick batchDelayMax; EvSend 0 None] (after cancelled start)
          = Some (after [EvTrigger; EvTick batchDelayMax; EvSend 0 None]
                    (after cancelled start))) as Hrun.
  { apply run_after. vm_compute. reflexivity. }
  destruct (X12_nothing_sent_after_return _ _ _ Hr Hrun) as (_&Hb&_).
  split; [exact Hr|]. split; [exact Hrun|]. split; [exact Hb|].
  vm_compute. reflexivity.
Defined.

(** An empty registry and the demo project. *)
Lemma X13_New_builds_separate_queues_witness :
  ProjectID demoOpts ≠ "" ∧
  (∀ n, n ∈ exporterCounters → n ∉ ([] : Registry)) ∧
  ∃ e cs,
    New (Sample:=nat) (Some ([] : Registry)) demoOpts =
      Returns (mkNewResult (Some exporterCounters) (Some (e, cs)) None) ∧
    length (shards e) = 512 ∧ length cs = 512.
Proof.
  assert (ProjectID demoOpts ≠ "") as Hp by discriminate.
  assert (∀ n, n ∈ exporterCounters → n ∉ ([] : Registry)) as Hfresh.
  { intros n _ Hn. exact (proj1 (elem_of_nil n) Hn). }
  destruct (X13_New_builds_separate_queues (Sample:=nat) [] demoOpts Hp Hfresh)
    as (e&cs&Hnew&_&Hs&Hc&_).
  split; [exact Hp|]. split; [exact Hfresh|].
  exists e, cs. split; [exact Hnew|]. split; [exact Hs|exact Hc].
Defined.
